(** * Monthly quotas ("metas") for a call centre: quota and gap engine

    A shallow embedding of [new_tendency_analysis.py]: the key normalisers,
    the Mexican business calendar, the delivery classifier, the rolling
    average, the quota policy and the gap tables with their rollups,
    followed by the properties of these functions.

    Conventions of the embedding.
    - A Python [str] is a list of Unicode code points.  What Python takes
      from the Unicode character database ([str.isspace], [str.upper],
      [unicodedata.normalize], ...) is an interface, [UnicodeData]; the
      instance [Latin1] tabulates it for Basic Latin, the Latin-1
      Supplement and the combining diacritical marks.
    - Integer columns ([int64]) hold numbers of table rows and quotas
      derived from them; they are integers of [Z].  Float columns hold
      quotients of such integers and multiples of one half; they are
      rationals of [Q].  Both readings are exact as long as the counts
      stay far below [2^53], which a table held in memory does.
    - A DataFrame is the list of its rows; [sort_values] only permutes
      rows and is left out, [groupby] keeps its sorted, duplicate-free
      keys. *)

From Stdlib Require Import ZArith NArith QArith Qround List Bool Lia String Ascii.
Import ListNotations.

Set Implicit Arguments.
Close Scope Q_scope.
Open Scope Z_scope.

(* ================================================================== *)
(** * Part I: the program                                              *)
(* ================================================================== *)

(** ** Python strings *)

Definition codepoint := N.
Definition str := list codepoint.

(** A string literal of the source, as code points. *)
Definition lit (s : string) : str := map N_of_ascii (list_ascii_of_string s).

Definition str_eqb (a b : str) : bool :=
  if list_eq_dec N.eq_dec a b then true else false.

(** The part of the Unicode character database the program reads.
    [toupper] and [tolower] are the full case mappings of [str.upper] and
    [str.lower] (one code point may become several); [decompose] is the
    full compatibility decomposition of one code point, as NFKD applies it;
    [combining] is the canonical combining class of
    [unicodedata.combining]; [isalnum] is [str.isalnum], which with the
    underscore makes the word characters of [re]. *)
Class UnicodeData := {
  isspace : codepoint -> bool;
  isdigit : codepoint -> bool;
  toupper : codepoint -> str;
  tolower : codepoint -> str;
  decompose : codepoint -> str;
  combining : codepoint -> N;
  isalnum : codepoint -> bool
}.

Section PyStr.
Context {U : UnicodeData}.

(** [s.strip()] *)
Fixpoint lstrip (s : str) : str :=
  match s with
  | [] => []
  | c :: s' => if isspace c then lstrip s' else s
  end.

Definition rstrip (s : str) : str := rev (lstrip (rev s)).

Definition strip (s : str) : str := rstrip (lstrip s).

(** [s.upper()], [s.lower()] *)
Definition upper (s : str) : str := flat_map toupper s.
Definition lower (s : str) : str := flat_map tolower s.

(** [s.split()]: the maximal runs of characters that are not white space.
    [tok] is the run being read, last character first. *)
Fixpoint split_go (tok : str) (s : str) : list str :=
  match s with
  | [] => match tok with [] => [] | _ => [rev tok] end
  | c :: s' =>
      if isspace c
      then match tok with
           | [] => split_go [] s'
           | _ => rev tok :: split_go [] s'
           end
      else split_go (c :: tok) s'
  end.

Definition split (s : str) : list str := split_go [] s.

(** [sep.join(parts)] *)
Fixpoint join (sep : str) (parts : list str) : str :=
  match parts with
  | [] => []
  | [t] => t
  | t :: rest => t ++ sep ++ join sep rest
  end.

(** [s.isdigit()]: at least one character, all of them digits. *)
Definition str_isdigit (s : str) : bool :=
  match s with
  | [] => false
  | _ => forallb isdigit s
  end.

(** [s.endswith(suffix)] and [s[:-n]] *)
Fixpoint startswith (s p : str) : bool :=
  match p, s with
  | [], _ => true
  | _ :: _, [] => false
  | a :: p', b :: s' => N.eqb a b && startswith s' p'
  end.

Definition endswith (s suffix : str) : bool := startswith (rev s) (rev suffix).

(** [needle in s] *)
Fixpoint contains (s needle : str) : bool :=
  startswith s needle
  || match s with
     | [] => false
     | _ :: s' => contains s' needle
     end.

Definition drop_last (n : nat) (s : str) : str := firstn (List.length s - n) s.

(** [s.split(".", 1)] when ["." in s]: the text before the first separator
    and the text after it. *)
Fixpoint partition_at (sep : codepoint) (s : str) : option (str * str) :=
  match s with
  | [] => None
  | c :: s' =>
      if N.eqb c sep then Some ([], s')
      else match partition_at sep s' with
           | Some (l, r) => Some (c :: l, r)
           | None => None
           end
  end.

(** [s.strip("0")] and friends: strip one given character from both ends. *)
Fixpoint lstrip_char (ch : codepoint) (s : str) : str :=
  match s with
  | [] => []
  | c :: s' => if N.eqb c ch then lstrip_char ch s' else s
  end.

Definition strip_char (ch : codepoint) (s : str) : str :=
  rev (lstrip_char ch (rev (lstrip_char ch s))).

(** [unicodedata.normalize("NFKD", s)]: every code point is replaced by its
    full compatibility decomposition, then combining marks are put in
    canonical order: a mark moves left past a neighbour of a higher
    combining class, never past a starter (class 0).  [reorder_insert]
    inserts one code point into an ordered text held last character
    first. *)
Fixpoint reorder_insert (x : codepoint) (acc : str) : str :=
  match acc with
  | [] => [x]
  | y :: acc' =>
      if (N.ltb 0%N (combining x)) && (N.ltb (combining x) (combining y))
      then y :: reorder_insert x acc'
      else x :: acc
  end.

Definition canonical_order (s : str) : str :=
  rev (fold_left (fun acc x => reorder_insert x acc) s []).

Definition nfkd (s : str) : str := canonical_order (flat_map decompose s).

(** ** Name and key normalisers *)

(** [normalize_name(s)]; [None] is Python's [None]. *)
Definition normalize_name (s : option str) : str :=
  let s := match s with None => [] | Some s => s end in
  let s := upper (strip s) in
  let s := join (lit " ") (split s) in
  let s := nfkd s in
  filter (fun c => N.eqb (combining c) 0%N) s.

(** [normalize_folio_key(x)]; the argument is [None] or the text [str(x)]. *)
Definition normalize_folio_key (x : option str) : str :=
  match x with
  | None => []
  | Some sx =>
      let s := strip sx in
      if match s with [] => true | _ => false end
         || str_eqb (lower s) (lit "nan") || str_eqb (lower s) (lit "none")
      then []
      else
        let head := drop_last 2 s in
        if endswith s (lit ".0") && str_isdigit head then head
        else
          match partition_at 46%N s with
          | Some (left', right') =>
              if str_isdigit left'
                 && match strip_char 48%N right' with [] => true | _ => false end
              then left'
              else s
          | None => s
          end
  end.

End PyStr.

(** ** The Unicode tables for Latin text

    Python's character database (Unicode 14) on Basic Latin, the Latin-1
    Supplement (U+0000..U+00FF), the combining diacritical marks
    (U+0300..U+036F) and the code points their mappings reach (U+0178,
    U+0399, U+039C, U+03B9, U+03BC, U+2044).  Elsewhere only the white
    space is tabulated; every other code point is taken as caseless,
    undecomposable and of class 0, and nothing is stated about it. *)
Module Latin1Tables.
Local Open Scope N_scope.

Definition between (lo hi c : N) : bool := (lo <=? c) && (c <=? hi).

Definition isspace (c : N) : bool :=
  between 0x09 0x0D c || between 0x1C 0x20 c || (c =? 0x85) || (c =? 0xA0)
  || (c =? 0x1680) || between 0x2000 0x200A c || (c =? 0x2028)
  || (c =? 0x2029) || (c =? 0x202F) || (c =? 0x205F) || (c =? 0x3000).

Definition isdigit (c : N) : bool :=
  between 0x30 0x39 c || (c =? 0xB2) || (c =? 0xB3) || (c =? 0xB9).

Definition toupper (c : N) : list N :=
  if between 0x61 0x7A c then [c - 32]
  else if c =? 0xB5 then [0x39C]
  else if c =? 0xDF then [0x53; 0x53]
  else if between 0xE0 0xFE c && negb (c =? 0xF7) then [c - 32]
  else if c =? 0xFF then [0x178]
  else if c =? 0x345 then [0x399]
  else if c =? 0x3B9 then [0x399]
  else if c =? 0x3BC then [0x39C]
  else [c].

Definition tolower (c : N) : list N :=
  if between 0x41 0x5A c then [c + 32]
  else if between 0xC0 0xDE c && negb (c =? 0xD7) then [c + 32]
  else if c =? 0x178 then [0xFF]
  else if c =? 0x399 then [0x3B9]
  else if c =? 0x39C then [0x3BC]
  else [c].

(** Base letter of the accented Latin-1 capitals and small letters. *)
Definition accent_of (k : N) : N :=
  match k with
  | 0 => 0x300 | 1 => 0x301 | 2 => 0x302 | 3 => 0x303 | 4 => 0x308
  | _ => 0x30A
  end.

Definition decompose_capital (c : N) : list N :=
  if between 0xC0 0xC5 c then [0x41; accent_of (c - 0xC0)]
  else if c =? 0xC7 then [0x43; 0x327]
  else if between 0xC8 0xCA c then [0x45; accent_of (c - 0xC8)]
  else if c =? 0xCB then [0x45; 0x308]
  else if between 0xCC 0xCE c then [0x49; accent_of (c - 0xCC)]
  else if c =? 0xCF then [0x49; 0x308]
  else if c =? 0xD1 then [0x4E; 0x303]
  else if between 0xD2 0xD6 c then [0x4F; accent_of (c - 0xD2)]
  else if between 0xD9 0xDB c then [0x55; accent_of (c - 0xD9)]
  else if c =? 0xDC then [0x55; 0x308]
  else if c =? 0xDD then [0x59; 0x301]
  else [c].

Definition decompose (c : N) : list N :=
  if c =? 0xA0 then [0x20]
  else if c =? 0xA8 then [0x20; 0x308]
  else if c =? 0xAA then [0x61]
  else if c =? 0xAF then [0x20; 0x304]
  else if c =? 0xB2 then [0x32]
  else if c =? 0xB3 then [0x33]
  else if c =? 0xB4 then [0x20; 0x301]
  else if c =? 0xB5 then [0x3BC]
  else if c =? 0xB8 then [0x20; 0x327]
  else if c =? 0xB9 then [0x31]
  else if c =? 0xBA then [0x6F]
  else if c =? 0xBC then [0x31; 0x2044; 0x34]
  else if c =? 0xBD then [0x31; 0x2044; 0x32]
  else if c =? 0xBE then [0x33; 0x2044; 0x34]
  else if between 0xC0 0xDF c then decompose_capital c
  else if between 0xE0 0xFE c then
    match decompose_capital (c - 32) with
    | [b; m] => [b + 32; m]
    | _ => [c]
    end
  else if c =? 0xFF then [0x79; 0x308]
  else if c =? 0x178 then [0x59; 0x308]
  else if c =? 0x340 then [0x300]
  else if c =? 0x341 then [0x301]
  else if c =? 0x343 then [0x313]
  else if c =? 0x344 then [0x308; 0x301]
  else [c].

Definition combining (c : N) : N :=
  if between 0x334 0x338 c then 1
  else if between 0x321 0x322 c || between 0x327 0x328 c then 202
  else if c =? 0x31B then 216
  else if between 0x316 0x319 c || between 0x31C 0x320 c
          || between 0x323 0x326 c || between 0x329 0x333 c
          || between 0x339 0x33C c || between 0x347 0x349 c
          || between 0x34D 0x34E c || between 0x353 0x356 c
          || between 0x359 0x35A c then 220
  else if between 0x300 0x314 c || between 0x33D 0x344 c || (c =? 0x346)
          || between 0x34A 0x34C c || between 0x350 0x352 c || (c =? 0x357)
          || (c =? 0x35B) || between 0x363 0x36F c then 230
  else if (c =? 0x315) || (c =? 0x31A) || (c =? 0x358) then 232
  else if (c =? 0x35C) || (c =? 0x35F) || (c =? 0x362) then 233
  else if between 0x35D 0x35E c || between 0x360 0x361 c then 234
  else if c =? 0x345 then 240
  else 0.

Definition isalnum (c : N) : bool :=
  between 0x30 0x39 c || between 0x41 0x5A c || between 0x61 0x7A c
  || (c =? 0xAA) || (c =? 0xB2) || (c =? 0xB3) || (c =? 0xB5) || (c =? 0xB9)
  || (c =? 0xBA) || between 0xBC 0xBE c || between 0xC0 0xD6 c
  || between 0xD8 0xF6 c || between 0xF8 0xFF c
  || (c =? 0x178) || (c =? 0x399) || (c =? 0x39C) || (c =? 0x3B9) || (c =? 0x3BC).

End Latin1Tables.

Definition Latin1 : UnicodeData :=
  {| isspace := Latin1Tables.isspace;
     isdigit := Latin1Tables.isdigit;
     toupper := Latin1Tables.toupper;
     tolower := Latin1Tables.tolower;
     decompose := Latin1Tables.decompose;
     combining := Latin1Tables.combining;
     isalnum := Latin1Tables.isalnum |}.

(** ** Dates

    [datetime.date]: a proleptic Gregorian date, with the ordinal and the
    weekday (Monday is 0) of CPython's [datetime] module. *)

Record date := mkdate { year : Z; month : Z; day : Z }.

Definition is_leap (y : Z) : bool :=
  (y mod 4 =? 0) && (negb (y mod 100 =? 0) || (y mod 400 =? 0)).

Definition days_in_month (y m : Z) : Z :=
  if m =? 2 then (if is_leap y then 29 else 28)
  else if (m =? 4) || (m =? 6) || (m =? 9) || (m =? 11) then 30
  else 31.

Definition days_before_year (y : Z) : Z :=
  let y1 := y - 1 in y1 * 365 + y1 / 4 - y1 / 100 + y1 / 400.

Definition days_before_month (y m : Z) : Z :=
  nth (Z.to_nat m) [0; 0; 31; 59; 90; 120; 151; 181; 212; 243; 273; 304; 334] 0
  + (if (2 <? m) && is_leap y then 1 else 0).

Definition toordinal (d : date) : Z :=
  days_before_year (year d) + days_before_month (year d) (month d) + day d.

Definition weekday (d : date) : Z := (toordinal d + 6) mod 7.

(** The values of the type [date]: [date(y, m, d)] raises on the others. *)
Definition valid_date (d : date) : Prop :=
  1 <= year d <= 9999 /\ 1 <= month d <= 12
  /\ 1 <= day d <= days_in_month (year d) (month d).

Definition date_eqb (a b : date) : bool :=
  (year a =? year b) && (month a =? month b) && (day a =? day b).

(** [a < b] on dates compares (year, month, day). *)
Definition date_ltb (a b : date) : bool :=
  (year a <? year b)
  || ((year a =? year b)
      && ((month a <? month b) || ((month a =? month b) && (day a <? day b)))).

Definition date_leb (a b : date) : bool := negb (date_ltb b a).

(** [d.replace(day=k)] *)
Definition replace_day (d : date) (k : Z) : date := mkdate (year d) (month d) k.

(** The day after [d]: the step of [pd.date_range(..., freq="D")]. *)
Definition next_day (d : date) : date :=
  if day d <? days_in_month (year d) (month d)
  then mkdate (year d) (month d) (day d + 1)
  else if month d <? 12 then mkdate (year d) (month d + 1) 1
  else mkdate (year d + 1) 1 1.

Fixpoint days_from (d : date) (n : nat) : list date :=
  match n with
  | O => []
  | S n' => d :: days_from (next_day d) n'
  end.

(** [pd.date_range(start, end, freq="D")]: the days of [start..end]. *)
Definition date_range (start_d end_d : date) : list date :=
  days_from start_d (Z.to_nat (toordinal end_d - toordinal start_d + 1)).

(** ** Business calendar *)

Definition _nth_weekday_of_month (y m wd n : Z) : date :=
  let d := mkdate y m 1 in
  let shift := (wd - weekday d) mod 7 in
  let d := replace_day d (1 + shift) in
  let d := replace_day d (day d + 7 * (n - 1)) in
  d.

(** The set of the source, as the list of its elements. *)
Definition mexico_puentes (y : Z) : list date :=
  [ mkdate y 1 1;
    _nth_weekday_of_month y 2 0 1;
    _nth_weekday_of_month y 3 0 3;
    mkdate y 5 1;
    mkdate y 9 16;
    _nth_weekday_of_month y 11 0 3;
    mkdate y 12 25 ].

Definition date_in (d : date) (s : list date) : bool := existsb (date_eqb d) s.

(** One turn of the loop of [workable_equiv_between]; the state is the
    pair of [puentes] and [total]. *)
Definition workable_step (start_d : date) (st : list date * Q) (dts : date)
  : list date * Q :=
  let (puentes, total) := st in
  let puentes :=
    if negb (year dts =? year start_d)
    then puentes ++ mexico_puentes (year dts) else puentes in
  if date_in dts puentes then (puentes, total)
  else
    let wd := weekday dts in
    if wd <=? 4 then (puentes, (total + 1)%Q)
    else if wd =? 5 then (puentes, (total + (1 # 2))%Q)
    else (puentes, total).

Definition workable_equiv_between (start_d end_d : date) : Q :=
  if date_ltb end_d start_d then 0%Q
  else
    let days := date_range start_d end_d in
    let puentes := mexico_puentes (year start_d) in
    snd (fold_left (workable_step start_d) days (puentes, 0%Q)).

(** A month key ["YYYY-MM"], as its two numbers. *)
Record month_key := mkmonth { mk_year : Z; mk_month : Z }.

Definition month_key_eqb (a b : month_key) : bool :=
  (mk_year a =? mk_year b) && (mk_month a =? mk_month b).

Definition month_bounds (ym_key : month_key) : date * date :=
  let y := mk_year ym_key in
  let m := mk_month ym_key in
  (mkdate y m 1, mkdate y m (days_in_month y m)).

Definition workable_days_equiv_month (ym_key : month_key) : Q :=
  let (start, end_) := month_bounds ym_key in
  workable_equiv_between start end_.

Definition workable_days_equiv_elapsed_in_month (ym_key : month_key) (today : date) : Q :=
  let (start, end_) := month_bounds ym_key in
  if date_ltb today start then 0%Q
  else
    let cutoff := if date_ltb end_ today then end_ else today in
    workable_equiv_between start cutoff.

(** [dias_hab_eq_remaining]: from today (or the first of the month) to the
    end of the month, today included. *)
Definition dias_hab_eq_remaining (ym_key : month_key) (today_d : date) : Q :=
  let (m_ini_tmp, m_fin_tmp) := month_bounds ym_key in
  let start_rem := if date_ltb m_ini_tmp today_d then today_d else m_ini_tmp in
  if date_leb today_d m_fin_tmp then workable_equiv_between start_rem m_fin_tmp
  else 0%Q.

Definition Qltb (a b : Q) : bool := negb (Qle_bool b a).

Definition dias_hab_eq_remaining_for_rate (remaining : Q) : Q :=
  if Qltb 0 remaining && Qltb remaining 1 then 1%Q else remaining.

(** ** Tables: grouping and sums *)

Definition sumZ (l : list Z) : Z := fold_right Z.add 0 l.

(** Python orders strings by code point, position by position. *)
Fixpoint str_compare (a b : str) : comparison :=
  match a, b with
  | [], [] => Eq
  | [], _ :: _ => Lt
  | _ :: _, [] => Gt
  | x :: a', y :: b' =>
      match N.compare x y with
      | Eq => str_compare a' b'
      | c => c
      end
  end.

Section Sorted.
Variable A : Type.
Variable cmp : A -> A -> comparison.

Fixpoint insert_sorted (k : A) (ks : list A) : list A :=
  match ks with
  | [] => [k]
  | k' :: ks' =>
      match cmp k k' with
      | Lt => k :: ks
      | Eq => ks
      | Gt => k' :: insert_sorted k ks'
      end
  end.

(** [sorted(x.unique())]: the distinct values, in increasing order. *)
Definition sorted_unique (ks : list A) : list A :=
  fold_right insert_sorted [] ks.

End Sorted.

(** [df.groupby(key)]: the distinct keys in increasing order, each with
    the rows that carry it, in the order of the frame. *)
Definition groupby (R : Type) (key : R -> str) (rows : list R)
  : list (str * list R) :=
  map (fun k => (k, filter (fun r => str_eqb (key r) k) rows))
      (sorted_unique str_compare (map key rows)).

(** [("EJECUTIVO", "nunique")] *)
Definition nunique (ks : list str) : Z :=
  Z.of_nat (List.length (sorted_unique str_compare ks)).

(** ** Delivery records: completed or in transit *)

(** A cell read from SQL: [None], a float NaN, or a value with the text
    [str(x)]. *)
Inductive pyval := PyNone | PyNaN | PyStr (s : str).

(** [.astype(str)] on one cell *)
Definition astype_str (v : pyval) : str :=
  match v with
  | PyNone => lit "None"
  | PyNaN => lit "nan"
  | PyStr s => s
  end.

Record programada := mkprogramada {
  VENDEDOR : pyval;
  ESTATUS : pyval;
  VENTA : pyval
}.

Record split_row := mksplit_row {
  g_VENDEDOR : str;
  hechas_mes : Z;
  transito_mes : Z;
  total_mes : Z;
  VEN_NORM : str
}.

Definition TRANSITO_SET : list str :=
  [lit "EN ENTREGA"; lit "EN PREPARACION"; lit "SOLICITADO"; lit "BACK OFFICE"].

Definition isin (s : str) (set : list str) : bool := existsb (str_eqb s) set.

Definition int_of_bool (b : bool) : Z := if b then 1 else 0.

Section Programadas.
Context {U : UnicodeData}.

Definition _venta_vacia (x : pyval) : bool :=
  match x with
  | PyNone => true
  | PyNaN => true
  | PyStr sx =>
      let s := strip sx in
      str_eqb s [] || str_eqb (lower s) (lit "nan")
      || str_eqb (lower s) (lit "none")
  end.

(** [df["ESTATUS"].astype(str).str.strip().map(normalize_name)] on a row *)
Definition est_norm (r : programada) : str :=
  normalize_name (Some (strip (astype_str (ESTATUS r)))).

Definition is_transito (r : programada) : bool :=
  isin (est_norm r) TRANSITO_SET
  || (str_eqb (est_norm r) (lit "ENTREGADO") && _venta_vacia (VENTA r)).

Definition is_canc (r : programada) : bool :=
  str_eqb (est_norm r) (lit "CANC ERROR").

(** The key of the grouping: [df["VENDEDOR"].astype(str).str.strip()] *)
Definition vendedor (r : programada) : str := strip (astype_str (VENDEDOR r)).

(** [load_programadas_split_by_exec], from the rows the query returned. *)
Definition load_programadas_split_by_exec (df : list programada)
  : list split_row :=
  match df with
  | [] => []
  | _ =>
      let df := filter (fun r => negb (is_canc r)) df in
      map (fun kg : str * list programada =>
             let (k, grp) := kg in
             let hechas := sumZ (map (fun r => int_of_bool (negb (is_transito r))) grp) in
             let transito := sumZ (map (fun r => int_of_bool (is_transito r)) grp) in
             mksplit_row k hechas transito (hechas + transito)
                         (normalize_name (Some k)))
          (groupby vendedor df)
  end.

End Programadas.

(** ** Sales records: the fallback flag of [load_ventas] *)

(** The columns of a sale that the flag reads. *)
Record venta_sql := mkventa_sql {
  v_ESTATUS : pyval;
  v_PLAN : pyval;
  v_PRECIO : pyval;
  v_RENTA_SIN_IMPUESTOS : pyval
}.

Definition TRANSITO_KEYS : list str :=
  [lit "EN ENTREGA"; lit "EN PREPARACION"; lit "BACK OFFICE"; lit "SOLICITADO";
   lit "EN TRANSITO"].

Section Ventas.
Context {U : UnicodeData}.

(** A word character of [re], or the edge of the text. *)
Definition isword (c : option codepoint) : bool :=
  match c with
  | Some c => isalnum c || N.eqb c 95%N
  | None => false
  end.

(** [\b] between two neighbouring positions *)
Definition word_boundary (prev next : option codepoint) : bool :=
  xorb (isword prev) (isword next).

Definition last_or (pat : str) (prev : option codepoint) : option codepoint :=
  match rev pat with c :: _ => Some c | [] => prev end.

(** The pattern [\b pat] (and a closing [\b] when [trail]) matches at the
    head of [s], [prev] being the character before it. *)
Definition match_here (trail : bool) (pat : str) (prev : option codepoint)
           (s : str) : bool :=
  word_boundary prev (hd_error s) && startswith s pat
  && (negb trail
      || word_boundary (last_or pat prev) (hd_error (skipn (List.length pat) s))).

(** [re.search] of that pattern: a match at some position. *)
Fixpoint search_word (trail : bool) (pat : str) (prev : option codepoint)
         (s : str) : bool :=
  match_here trail pat prev s
  || match s with
     | [] => false
     | c :: s' => search_word trail pat (Some c) s'
     end.

(** [series.str.contains(r"\bPAT\b", na=False)] on one cell *)
Definition contains_word (pat s : str) : bool := search_word true pat None s.

(** [_is_blank_series] on one cell *)
Definition _is_blank_series (x : pyval) : bool :=
  let x := match x with
           | PyNone => PyNaN
           | PyNaN => PyNaN
           | PyStr s => if str_eqb s (lit "None") then PyNaN else PyStr s
           end in
  let s := strip (astype_str x) in
  str_eqb s [] || str_eqb (lower s) (lit "nan").

(** [df["IS_TRANSITO"]] of one sale *)
Definition IS_TRANSITO (r : venta_sql) : bool :=
  let est_norm := normalize_name (Some (strip (astype_str (v_ESTATUS r)))) in
  let is_transito_by_status :=
    isin est_norm TRANSITO_KEYS
    || contains_word (lit "TRANSITO") est_norm
    || contains_word (lit "EN ENTREGA") est_norm
    || contains_word (lit "EN PREPARACION") est_norm
    || contains_word (lit "BACK OFFICE") est_norm
    || contains_word (lit "SOLICITADO") est_norm in
  let blank_plan := _is_blank_series (PyStr (strip (astype_str (v_PLAN r)))) in
  let blank_precio := _is_blank_series (v_PRECIO r) in
  let blank_renta := _is_blank_series (v_RENTA_SIN_IMPUESTOS r) in
  let venta_vacia := blank_plan && blank_precio && blank_renta in
  let is_entregado := search_word false (lit "ENTREGAD") None est_norm in
  let is_transito_entregado_sin_venta := is_entregado && venta_vacia in
  is_transito_by_status || is_transito_entregado_sin_venta.

End Ventas.

(** ** Rolling average over the window *)

Definition any (l : list bool) : bool := existsb (fun b => b) l.

(** [np.argmax] of a row of booleans: the first [True], or 0 when there
    is none. *)
Fixpoint argmax (l : list bool) : nat :=
  match l with
  | [] => O
  | b :: l' => if b then O else if any l' then S (argmax l') else O
  end.

Fixpoint cumsum_from (acc : Z) (l : list Z) : list Z :=
  match l with
  | [] => []
  | x :: l' => (acc + x) :: cumsum_from (acc + x) l'
  end.

Definition cumsum (l : list Z) : list Z := cumsum_from 0 l.

(** The flag [has_nz] of one row of the window. *)
Definition has_nz (win : list Z) : bool := any (map (fun v => 0 <? v) win).

(** [prom_ult_3m] (and [Promedio ventas meses]) of one row of the window:
    [np.argmax] raises on a window without months. *)
Definition prom_ult_3m (win : list Z) : option Q :=
  match win with
  | [] => None
  | _ =>
      let c := List.length win in
      let nz := map (fun v => 0 <? v) win in
      let first_i := if any nz then argmax nz else O in
      let suff := rev (cumsum (rev win)) in
      let ssum := nth first_i suff 0 in
      let cnt := Z.of_nat (c - first_i) in
      let avg3 := (inject_Z ssum / inject_Z cnt)%Q in
      Some (if any nz then avg3 else 0%Q)
  end.

(** ** Quota policy *)

(** [.astype(int)] on a float: truncation towards zero. *)
Definition astype_int (q : Q) : Z := Z.quot (Qnum q) (Zpos (Qden q)).

Definition np_floor (q : Q) : Q := inject_Z (Qfloor q).

(** [meta_mes] (and [meta simulacion] before the override) of one row. *)
Definition meta_mes (ten : Z) (prom : Q) : Z :=
  astype_int
    (if ten <? 41 then 6%Q
     else if Qle_bool 7 prom then (np_floor prom + 1)%Q
     else if Qle_bool 6 prom then (np_floor prom + 2)%Q
     else 7%Q).

(** ** The session: what one run of the page reads *)

Inductive status := ACTIVO | BAJA.

Definition status_eqb (a b : status) : bool :=
  match a, b with
  | ACTIVO, ACTIVO | BAJA, BAJA => true
  | _, _ => false
  end.

(** A sale of [ventas_flt], after the join with the supervisors. *)
Record venta := mkventa {
  EJECUTIVO : str;
  T_MonthKey : month_key;
  Supervisor : str;
  CentroKey : str
}.

Record session := mksession {
  ventas_flt : list venta;
  (** [df_ctx]: the sales of the months and weeks chosen for the simulation *)
  df_export_base : list venta;
  ingreso_map_norm : str -> option date;
  first_dt_ventas_norm : str -> option date;
  meta_month_key : month_key;
  meta_window_keys : list month_key;
  (** [date.today()] *)
  today : date;
  (** the rows of [build_programadas_query]; [None] when the read raises *)
  programadas : option (list programada)
}.

(** Month keys ["YYYY-MM"] in the order of their texts. *)
Definition month_compare (a b : month_key) : comparison :=
  match Z.compare (mk_year a) (mk_year b) with
  | Eq => Z.compare (mk_month a) (mk_month b)
  | c => c
  end.

(** [Timestamp(y, m, 1) + DateOffset(months=1)] *)
Definition next_month_start (k : month_key) : date :=
  if mk_month k =? 12 then mkdate (mk_year k + 1) 1 1
  else mkdate (mk_year k) (mk_month k + 1) 1.

(** All the rows, or the first failure. *)
Fixpoint traverse (A B : Type) (f : A -> option B) (l : list A)
  : option (list B) :=
  match l with
  | [] => Some []
  | x :: l' =>
      match f x, traverse f l' with
      | Some y, Some ys => Some (y :: ys)
      | _, _ => None
      end
  end.

Section Pipeline.
Context {U : UnicodeData}.
Variable S : session.

Definition _get_ingreso_dt_for_norm (ej_norm : str) : option date :=
  match ingreso_map_norm S ej_norm with
  | Some v => Some v
  | None => first_dt_ventas_norm S ej_norm
  end.

(** [replace({None: "", "None": ""}).astype(str).str.strip().replace({"": "BAJA"})] *)
Definition clean_supervisor (s : str) : str :=
  let s := if str_eqb s (lit "None") then [] else s in
  let s := strip s in
  match s with [] => lit "BAJA" | _ => s end.

(** The rows of one executive in a frame of sales. *)
Definition of_exec (base : list venta) (ej : str) : list venta :=
  filter (fun v => str_eqb (EJECUTIVO v) ej) base.

(** [groupby("EJECUTIVO")[col].agg(first not null)] then [.map(...).fillna(d)] *)
Definition first_or (A : Type) (l : list A) (d : A) : A :=
  match l with x :: _ => x | [] => d end.

Definition sup_map (base : list venta) (ej : str) : str :=
  first_or (map (fun v => clean_supervisor (Supervisor v)) (of_exec base ej))
           (lit "BAJA").

(** [groupby(["EJECUTIVO", "T_MonthKey"]).size()], zero where there is no
    sale: the cell of the dense executive-by-month table. *)
Definition Ventas_mes (base : list venta) (ej : str) (mk : month_key) : Z :=
  Z.of_nat (List.length
    (filter (fun v => month_key_eqb (T_MonthKey v) mk) (of_exec base ej))).

(** [(ref_day - fd.dt.normalize()).dt.days.fillna(0).astype(int).clip(lower=0)] *)
Definition dias_activo (ref_day : date) (ej : str) : Z :=
  match _get_ingreso_dt_for_norm (normalize_name (Some ej)) with
  | None => 0
  | Some fd => Z.max 0 (toordinal ref_day - toordinal fd)
  end.

(** *** Simulation by executive *)

Record sim_row := mksim_row {
  sim_EJECUTIVO : str;
  sim_Supervisor : str;
  sim_status : status;
  sim_dias_activo_al_1ro : Z;
  sim_months : list Z;
  Total_ventas : Z;
  Promedio_ventas_meses : Q;
  meta_simulacion : Z
}.

(** [df_sim.loc[df_sim["status"] == "BAJA", "meta simulacion"] = 0] *)
Definition baja_override (r : sim_row) : sim_row :=
  if status_eqb (sim_status r) BAJA
  then mksim_row (sim_EJECUTIVO r) (sim_Supervisor r) (sim_status r)
                 (sim_dias_activo_al_1ro r) (sim_months r) (Total_ventas r)
                 (Promedio_ventas_meses r) 0
  else r.

(** [df_sim]; [None] is [st.stop()] on an empty frame. *)
Definition df_sim : option (list sim_row) :=
  let base := df_export_base S in
  match base with
  | [] => None
  | _ =>
      let months_selected := sorted_unique month_compare (map T_MonthKey base) in
      let execs := sorted_unique str_compare (map EJECUTIVO base) in
      let last_month_interval := last months_selected (mkmonth 0 0) in
      let ref_day_sim := next_month_start last_month_interval in
      let rows :=
        traverse (fun ej =>
          let vals := map (Ventas_mes base ej) months_selected in
          match prom_ult_3m vals with
          | None => None
          | Some avg_active =>
              let st := if 0 <? Ventas_mes base ej last_month_interval
                        then ACTIVO else BAJA in
              let ten_sim := dias_activo ref_day_sim ej in
              Some (mksim_row ej (sup_map base ej) st ten_sim vals
                              (sumZ vals) avg_active
                              (meta_mes ten_sim avg_active))
          end) execs in
      match rows with
      | None => None
      | Some rows => Some (map baja_override rows)
      end
  end.

Definition meta_total_all (rows : list sim_row) : Z :=
  sumZ (map meta_simulacion rows).

(** *** Quotas of the month *)

Record metas_row := mkmetas_row {
  m_EJECUTIVO : str;
  m_Supervisor : str;
  m_CentroKey : str;
  m_status : status;
  dias_activo_al_1ro : Z;
  last3 : list Z;
  m_prom_ult_3m : Q;
  meta_mes_actual : Z
}.

Definition df_meta_base : list venta :=
  filter (fun v => existsb (month_key_eqb (T_MonthKey v)) (meta_window_keys S))
         (ventas_flt S).

Definition ventas_del_mes : list venta :=
  filter (fun v => month_key_eqb (T_MonthKey v) (meta_month_key S)) (ventas_flt S).

Definition centro_map (ej : str) : str :=
  let base := match ventas_del_mes with [] => ventas_flt S | l => l end in
  first_or (map CentroKey (of_exec base ej)) (lit "CC2").

(** [df_metas["status"]]: a sale in the selected month makes an executive
    active. *)
Definition status_of (ej : str) : status :=
  if 0 <? Z.of_nat (List.length (of_exec ventas_del_mes ej)) then ACTIVO else BAJA.

(** [df_metas_view]; [None] is [st.stop()]. *)
Definition df_metas_view : option (list metas_row) :=
  match df_meta_base with
  | [] => None
  | _ =>
      let meta_execs := sorted_unique str_compare (map EJECUTIVO df_meta_base) in
      let activos :=
        filter (fun ej => status_eqb (status_of ej) ACTIVO) meta_execs in
      match activos with
      | [] => None
      | _ =>
          let ref_day := mkdate (mk_year (meta_month_key S))
                                (mk_month (meta_month_key S)) 1 in
          traverse (fun ej =>
            let win := map (Ventas_mes df_meta_base ej) (meta_window_keys S) in
            match prom_ult_3m win with
            | None => None
            | Some prom =>
                let ten := dias_activo ref_day ej in
                Some (mkmetas_row ej (sup_map df_meta_base ej) (centro_map ej)
                                  (status_of ej) ten win prom (meta_mes ten prom))
            end) activos
      end
  end.

(** *** Aggregated quotas: team, centre, global *)

Record metas_group := mkmetas_group {
  mg_ejecutivos : Z;
  mg_meta : Z;
  mg_promedio_meta : Q
}.

Definition agg_metas (grp : list metas_row) : metas_group :=
  mkmetas_group (nunique (map m_EJECUTIVO grp))
                (sumZ (map meta_mes_actual grp))
                (inject_Z (sumZ (map meta_mes_actual grp))
                 / inject_Z (Z.of_nat (List.length grp)))%Q.

Definition df_team (view : list metas_row) : list (str * metas_group) :=
  map (fun kg => (fst kg, agg_metas (snd kg))) (groupby m_Supervisor view).

Definition df_centro (view : list metas_row) : list (str * metas_group) :=
  map (fun kg => (fst kg, agg_metas (snd kg))) (groupby m_CentroKey view).

Definition df_global (view : list metas_row) : metas_group :=
  mkmetas_group (nunique (map m_EJECUTIVO view))
                (sumZ (map meta_mes_actual view))
                (match view with
                 | [] => 0
                 | _ => inject_Z (sumZ (map meta_mes_actual view))
                        / inject_Z (Z.of_nat (List.length view))
                 end)%Q.

End Pipeline.

(** ** Sanity check: needed daily sales, sales made, in transit, gap *)

Record sanity_row := mksanity_row {
  s_EJECUTIVO : str;
  s_Supervisor : str;
  s_CentroKey : str;
  s_dias_activo_al_1ro : Z;
  ventas_hechas_mes : Z;
  ventas_en_transito_mes : Z;
  total_ventas_hechas_mes : Z;
  s_meta_mes_actual : Z;
  gap_meta : Z;
  dias_hab_equiv_mes : Q;
  ventas_diarias_necesarias : Q;
  dias_hab_equiv_restantes : Q;
  ventas_diarias_necesarias_desde_hoy : Q
}.

(** A row of [df_sanity_team], [df_sanity_centro] or [df_sanity_global]. *)
Record sanity_group := mksanity_group {
  ejecutivos : Z;
  ventas_hechas : Z;
  ventas_en_transito : Z;
  total_ventas_hechas : Z;
  meta_group : Z;
  gap_group : Z;
  sg_dias_hab_equiv_mes : Q;
  sg_ventas_diarias_necesarias : Q;
  esperado_a_hoy : Z;
  al_corriente : bool;
  sg_dias_hab_equiv_restantes : Q;
  sg_ventas_diarias_necesarias_desde_hoy : Q
}.

Record sanity_tables := mksanity_tables {
  df_sanity_exec : list sanity_row;
  df_sanity_team : list (str * sanity_group);
  df_sanity_centro : list (str * sanity_group);
  df_sanity_global : sanity_group
}.

(** [x.astype(float).clip(lower=0.0)] *)
Definition clip_lower_0 (x : Z) : Q := inject_Z (Z.max x 0).

(** [np.where(remaining_for_rate > 0.0, gap_pos / remaining_for_rate, gap_pos)] *)
Definition desde_hoy (remaining_for_rate : Q) (gap : Z) : Q :=
  let gap_pos := clip_lower_0 gap in
  if Qltb 0 remaining_for_rate then (gap_pos / remaining_for_rate)%Q
  else gap_pos.

Section Sanity.
Context {U : UnicodeData}.
Variable S : session.

Definition dias_hab_eq_total : Q := workable_days_equiv_month (meta_month_key S).

Definition dias_hab_eq_elapsed : Q :=
  workable_days_equiv_elapsed_in_month (meta_month_key S) (today S).

Definition remaining : Q := dias_hab_eq_remaining (meta_month_key S) (today S).

Definition remaining_for_rate : Q := dias_hab_eq_remaining_for_rate remaining.

(** [min(max(elapsed / total, 0.0), 1.0)] *)
Definition ratio : Q :=
  let r := (dias_hab_eq_elapsed / dias_hab_eq_total)%Q in
  let r := if Qle_bool 0 r then r else 0%Q in
  if Qle_bool r 1 then r else 1%Q.

(** [np.floor(meta.astype(float) * ratio + 1e-9).astype(int)] *)
Definition esperado (meta : Z) : Z :=
  Qfloor (inject_Z meta * ratio + (1 # 1000000000))%Q.

(** [prog_split]: the split per seller, or nothing when the read raised. *)
Definition prog_split : option (list split_row) :=
  match programadas S with
  | Some df => Some (load_programadas_split_by_exec df)
  | None => None
  end.

(** [df.merge(prog_split, left_on="EJ_NORM", right_on="VEN_NORM", how="left")]:
    a row for every match, one row without counts when there is none. *)
Definition merge_left (view : list metas_row) (split : list split_row)
  : list (metas_row * option split_row) :=
  flat_map (fun r =>
    let ej_norm := normalize_name (Some (m_EJECUTIVO r)) in
    match filter (fun g => str_eqb (VEN_NORM g) ej_norm) split with
    | [] => [(r, None)]
    | gs => map (fun g => (r, Some g)) gs
    end) view.

(** [pd.to_numeric(col).fillna(0).astype(int)] on a merged cell *)
Definition fill0 (f : split_row -> Z) (g : option split_row) : Z :=
  match g with Some g => f g | None => 0 end.

Definition sanity_exec_row (rg : metas_row * option split_row) : sanity_row :=
  let (r, g) := rg in
  let hechas := fill0 hechas_mes g in
  let transito := fill0 transito_mes g in
  let total := fill0 total_mes g in
  let meta := meta_mes_actual r in
  let gap := meta - total in
  mksanity_row (m_EJECUTIVO r) (m_Supervisor r) (m_CentroKey r)
               (dias_activo_al_1ro r) hechas transito total meta gap
               dias_hab_eq_total
               (inject_Z meta / dias_hab_eq_total)%Q
               remaining
               (desde_hoy remaining_for_rate gap).

Definition sanity_agg (grp : list sanity_row) : sanity_group :=
  let meta := sumZ (map s_meta_mes_actual grp) in
  let total := sumZ (map total_ventas_hechas_mes grp) in
  let gap := sumZ (map gap_meta grp) in
  mksanity_group (nunique (map s_EJECUTIVO grp))
                 (sumZ (map ventas_hechas_mes grp))
                 (sumZ (map ventas_en_transito_mes grp))
                 total meta gap
                 dias_hab_eq_total
                 (inject_Z meta / dias_hab_eq_total)%Q
                 (esperado meta)
                 (esperado meta <=? total)
                 remaining
                 (desde_hoy remaining_for_rate gap).

(** The four tables of the sanity check; [None] when the page stops
    before them or reports that the month has no working days. *)
Definition sanity : option sanity_tables :=
  match df_metas_view S with
  | None => None
  | Some view =>
      if Qle_bool dias_hab_eq_total 0 then None
      else
        let merged :=
          match prog_split with
          | Some split => merge_left view split
          | None => map (fun r => (r, None)) view
          end in
        let exec := map sanity_exec_row merged in
        Some (mksanity_tables
                exec
                (map (fun kg => (fst kg, sanity_agg (snd kg)))
                     (groupby s_Supervisor exec))
                (map (fun kg => (fst kg, sanity_agg (snd kg)))
                     (groupby s_CentroKey exec))
                (sanity_agg exec))
  end.

End Sanity.

(* ================================================================== *)
(** * Part II: the vocabulary of the statements                        *)
(* ================================================================== *)

(** What the properties below speak of: predicates on texts, the rules of
    the specification in its own words, and a small session on which the
    tables are run. *)

(** ** Texts *)

(** The six spacing marks and ordinal indicators of Latin-1: the diaeresis
    U+00A8, the feminine ordinal U+00AA, the macron U+00AF, the acute accent
    U+00B4, the cedilla U+00B8 and the masculine ordinal U+00BA. *)
Definition loose_marks : list codepoint := [0xA8; 0xAA; 0xAF; 0xB4; 0xB8; 0xBA]%N.

(** The characters of Latin-1 texts, U+0000..U+00FF, without those six. *)
Definition name_char (c : codepoint) : bool :=
  (c <=? 0xFF)%N && negb (existsb (N.eqb c) loose_marks).

Definition name_text (x : option str) : Prop :=
  match x with
  | None => True
  | Some s => Forall (fun c => name_char c = true) s
  end.

Section Vocabulary.
Context {U : UnicodeData}.

(** A letter, a digit or an underscore: what a word boundary separates
    from the rest. *)
Definition word_char (c : codepoint) : bool := isalnum c || (c =? 95)%N.

(** The phrase [k] stands in [s] between word boundaries: on each side the
    text ends or goes on with a character that is no word character. *)
Definition contains_phrase (k s : str) : Prop :=
  exists pre post,
    s = pre ++ k ++ post
    /\ match rev pre with [] => True | c :: _ => word_char c = false end
    /\ match post with [] => True | c :: _ => word_char c = false end.

(** A text without white space at its head is its own [lstrip]. *)
Definition head_ok (s : str) : Prop :=
  match s with [] => True | c :: _ => isspace c = false end.

(** Tokens: not empty, no white space inside. *)
Definition token (t : str) : Prop :=
  t <> [] /\ Forall (fun c => isspace c = false) t.

Definition starter (c : codepoint) : bool := N.eqb (combining c) 0%N.

(** A character that upper-casing, decomposition and the removal of marks
    leave alone. *)
Definition fixedb (c : codepoint) : bool :=
  str_eqb (toupper c) [c] && str_eqb (decompose c) [c]
  && N.eqb (combining c) 0%N.

Definition stableb (c : codepoint) : bool := negb (isspace c) && fixedb c.

(** An upper-cased character whose decomposition leaves at least one
    starter, all of them stable. *)
Definition goodb (u : codepoint) : bool :=
  negb (isspace u)
  && match filter starter (decompose u) with
     | [] => false
     | o => forallb stableb o
     end.

(** A character whose upper-case form is white space or good. *)
Definition plainb (c : codepoint) : bool :=
  forallb (fun u => isspace u || goodb u) (toupper c).

Definition space_fixedb : bool := isspace 32%N && fixedb 32%N.

(** The text the rules read: [str(x).strip()], nothing for [None]. *)
Definition trimmed (x : option str) : str :=
  match x with None => [] | Some sx => strip sx end.

(** Null, empty, or one of the placeholders in any letter case. *)
Definition placeholder (x : option str) : Prop :=
  x = None \/ trimmed x = [] \/ lower (trimmed x) = lit "nan"
  \/ lower (trimmed x) = lit "none".

(** [s] is the digits [h] followed by ".0". *)
Definition dot_zero_rule (s h : str) : Prop :=
  s = h ++ lit ".0" /\ str_isdigit h = true.

(** [s] is the digits [l], a point, and nothing but zeros. *)
Definition fraction_rule (s l : str) : Prop :=
  exists r, s = l ++ [46%N] ++ r /\ ~ In 46%N l
            /\ str_isdigit l = true /\ Forall (eq 48%N) r.

(** The rule of the specification, in its words: a ".0" after digits is
    dropped; else a point followed by zeros only is dropped with them,
    whatever stands before the point; else the trimmed text is returned. *)
Definition claimed_join_key (x : option str) : str :=
  let s := trimmed x in
  if match s with [] => true | _ => false end
     || str_eqb (lower s) (lit "nan") || str_eqb (lower s) (lit "none")
  then []
  else if endswith s (lit ".0") && str_isdigit (drop_last 2 s)
  then drop_last 2 s
  else match partition_at 46%N s with
       | Some (l, r) => if forallb (N.eqb 48%N) r then l else s
       | None => s
       end.

(** The linked sale is blank: null, NaN, or a text that is empty, "nan" or
    "none" (in any letter case) once trimmed. *)
Definition venta_blank (v : pyval) : Prop :=
  v = PyNone \/ v = PyNaN
  \/ exists s, v = PyStr s
       /\ (strip s = [] \/ lower (strip s) = lit "nan"
           \/ lower (strip s) = lit "none").


(** In transit as the specification words it: one of the four statuses,
    also inside a longer status, or ENTREGADO with a blank sale. *)
Definition claimed_in_transit (r : programada) : Prop :=
  In (est_norm r) TRANSITO_SET
  \/ (exists k, In k TRANSITO_SET /\ contains_phrase k (est_norm r))
  \/ (est_norm r = lit "ENTREGADO" /\ venta_blank (VENTA r)).

(** The statuses that [build_programadas_query] asks for with
    [[Estatus] IN ('En entrega', 'Canc Error', 'Entregado', 'En preparacion',
    'Back Office', 'Solicitado')], as [normalize_name] writes them. *)
Definition QUERY_ESTATUS : list str :=
  [lit "EN ENTREGA"; lit "CANC ERROR"; lit "ENTREGADO"; lit "EN PREPARACION";
   lit "BACK OFFICE"; lit "SOLICITADO"].

(** A record that the query can return: its status is one of the six, up
    to what the comparison of the server may ignore and [normalize_name]
    removes (letter case, accents, blanks around). *)
Definition from_programadas_query (r : programada) : Prop :=
  In (est_norm r) QUERY_ESTATUS.



(** A cancellation error: the normalised status is CANC ERROR. *)
Definition canc_error (r : programada) : Prop := est_norm r = lit "CANC ERROR".

Definition canc_error_dec (r : programada) : {canc_error r} + {~ canc_error r} :=
  list_eq_dec N.eq_dec (est_norm r) (lit "CANC ERROR").

(** The records of seller [v] that are no cancellation errors. *)
Definition others (v : str) (df : list programada) : list programada :=
  filter (fun r => if canc_error_dec r then false
                   else str_eqb (strip (astype_str (VENDEDOR r))) v) df.

Definition count (p : programada -> bool) (l : list programada) : Z :=
  Z.of_nat (List.length (filter p l)).

(** The row of seller [v] in the split, if there is one. *)
Definition split_of (v : str) (out : list split_row) : option split_row :=
  find (fun g => str_eqb (g_VENDEDOR g) v) out.

Definition split_row_of (kg : str * list programada) : split_row :=
  let (k, grp) := kg in
  let hechas := sumZ (map (fun r => int_of_bool (negb (is_transito r))) grp) in
  let transito := sumZ (map (fun r => int_of_bool (is_transito r)) grp) in
  mksplit_row k hechas transito (hechas + transito) (normalize_name (Some k)).

End Vocabulary.

(** ** Calendar, averages, quotas, gaps *)

(** The [n]-th day of the week [wd] of month [m]: a day of that month and
    week day, among the days [7(n-1)+1 .. 7n]. *)
Definition is_nth_weekday (d : date) (m wd n : Z) : Prop :=
  month d = m /\ weekday d = wd /\ 7 * (n - 1) < day d <= 7 * n.

(** The holidays of the specification: 1 January, the first Monday of
    February, the third Monday of March, 1 May, 16 September, the third
    Monday of November, 25 December. *)
Definition is_holiday (d : date) : Prop :=
  (month d = 1 /\ day d = 1)
  \/ is_nth_weekday d 2 0 1
  \/ is_nth_weekday d 3 0 3
  \/ (month d = 5 /\ day d = 1)
  \/ (month d = 9 /\ day d = 16)
  \/ is_nth_weekday d 11 0 3
  \/ (month d = 12 /\ day d = 25).

(** The first month of the window with a count that is not zero. *)
Fixpoint first_nonzero (win : list Z) : option nat :=
  match win with
  | [] => None
  | v :: w => if v =? 0 then option_map S (first_nonzero w) else Some O
  end.

(** The decision table of the specification: the first rule whose condition
    holds gives the quota, the last line is the default. *)
Record quota_rule := mkrule {
  applies : Z -> Q -> bool;
  quota_of : Q -> Z
}.

Definition quota_table : list quota_rule :=
  [ mkrule (fun ten _ => ten <? 41) (fun _ => 6);
    mkrule (fun _ prom => Qle_bool 7 prom) (fun prom => Qfloor prom + 1);
    mkrule (fun _ prom => Qle_bool 6 prom) (fun prom => Qfloor prom + 2) ].

Fixpoint first_match (rules : list quota_rule) (default : Z) (ten : Z) (prom : Q)
  : Z :=
  match rules with
  | [] => default
  | r :: rest =>
      if applies r ten prom then quota_of r prom
      else first_match rest default ten prom
  end.

Definition quota_policy (ten : Z) (prom : Q) : Z :=
  first_match quota_table 7 ten prom.

(** A row of the gap table keeps the identity gap + total = quota. *)
Definition row_identity (r : sanity_row) : Prop :=
  total_ventas_hechas_mes r = ventas_hechas_mes r + ventas_en_transito_mes r
  /\ gap_meta r = s_meta_mes_actual r - total_ventas_hechas_mes r
  /\ gap_meta r + (ventas_hechas_mes r + ventas_en_transito_mes r)
     = s_meta_mes_actual r.

(** A rollup row sums its members and keeps the identity. *)
Definition group_identity (members : list sanity_row) (g : sanity_group) : Prop :=
  ventas_hechas g = sumZ (map ventas_hechas_mes members)
  /\ ventas_en_transito g = sumZ (map ventas_en_transito_mes members)
  /\ total_ventas_hechas g = sumZ (map total_ventas_hechas_mes members)
  /\ meta_group g = sumZ (map s_meta_mes_actual members)
  /\ gap_group g = sumZ (map gap_meta members)
  /\ total_ventas_hechas g = ventas_hechas g + ventas_en_transito g
  /\ gap_group g + (ventas_hechas g + ventas_en_transito g) = meta_group g.

(** The remaining days as the rate reads them: a value strictly between 0
    and 1 counts as 1. *)
Definition adjusted_remaining (rem : Q) : Q :=
  if Qlt_le_dec 0 rem then (if Qlt_le_dec rem 1 then 1%Q else rem) else rem.

(** The rate of the specification: the positive part of the gap over the
    adjusted remaining days, or the positive part itself when no day is
    left. *)
Definition required_rate (adj : Q) (gap : Z) : Q :=
  if Qeq_bool adj 0 then inject_Z (Z.max gap 0)
  else (inject_Z (Z.max gap 0) / adj)%Q.

(** ** A session to run the tables on

    May 2025, on its last day (a Saturday), with the window February to
    April: Ana sells every month, Eva started in April and has no
    supervisor, Luis sold in February only. *)
Definition demo_sale (ej sup centro : string) (y m : Z) : venta :=
  mkventa (lit ej) (mkmonth y m) (lit sup) (lit centro).

Definition demo_ventas : list venta :=
  [ demo_sale "ANA" "SUP A" "JV" 2025 3;
    demo_sale "ANA" "SUP A" "JV" 2025 4;
    demo_sale "ANA" "SUP A" "JV" 2025 4;
    demo_sale "ANA" "SUP A" "JV" 2025 5;
    demo_sale "LUIS" "SUP A" "JV" 2025 2;
    demo_sale "EVA" "" "CC2" 2025 4;
    demo_sale "EVA" "" "CC2" 2025 5 ].

Definition demo_programadas : list programada :=
  [ mkprogramada (PyStr (lit "Ana")) (PyStr (lit "En entrega")) (PyStr (lit "1"));
    mkprogramada (PyStr (lit "Ana")) (PyStr (lit "Entregado")) (PyStr (lit "2"));
    mkprogramada (PyStr (lit "Ana")) (PyStr (lit "Canc Error")) (PyStr (lit "3"));
    mkprogramada (PyStr (lit "Eva")) (PyStr (lit "Entregado")) PyNone ].

Definition demo : session :=
  mksession
    demo_ventas
    (filter (fun v => negb (month_key_eqb (T_MonthKey v) (mkmonth 2025 5))) demo_ventas)
    (fun k => if str_eqb k (lit "ANA") then Some (mkdate 2024 1 15) else None)
    (fun k => if str_eqb k (lit "EVA") then Some (mkdate 2025 4 10)
              else if str_eqb k (lit "LUIS") then Some (mkdate 2025 2 3)
              else None)
    (mkmonth 2025 5)
    [mkmonth 2025 2; mkmonth 2025 3; mkmonth 2025 4]
    (mkdate 2025 5 31)
    (Some demo_programadas).

(* ================================================================== *)
(** * Part III: properties                                             *)
(* ================================================================== *)

(** ** Strings *)

Lemma str_eqb_eq (a b : str) : str_eqb a b = true <-> a = b.
Proof.
  unfold str_eqb. destruct (list_eq_dec N.eq_dec a b); split; congruence.
Qed.

Lemma str_eqb_neq (a b : str) : str_eqb a b = false <-> a <> b.
Proof.
  unfold str_eqb. destruct (list_eq_dec N.eq_dec a b); split; congruence.
Qed.

Lemma str_eqb_refl (a : str) : str_eqb a a = true.
Proof. now apply str_eqb_eq. Qed.

Lemma is_nil_true (A : Type) (l : list A) :
  match l with [] => true | _ => false end = true <-> l = [].
Proof. destruct l; split; congruence. Qed.

Section PyStrFacts.
Context {U : UnicodeData}.

Lemma lstrip_id (s : str) : head_ok s -> lstrip s = s.
Proof. destruct s as [|c s]; simpl; [reflexivity|]. now intros ->. Qed.

Lemma strip_id (s : str) : head_ok s -> head_ok (rev s) -> strip s = s.
Proof.
  intros H1 H2. unfold strip, rstrip.
  rewrite (lstrip_id s H1), (lstrip_id (rev s) H2). apply rev_involutive.
Qed.

Lemma Forall_lstrip (P : codepoint -> Prop) (s : str) :
  Forall P s -> Forall P (lstrip s).
Proof.
  induction 1 as [|c s Hc Hs IH]; simpl; [constructor|].
  destruct (isspace c); [assumption|now constructor].
Qed.

Lemma Forall_strip (P : codepoint -> Prop) (s : str) :
  Forall P s -> Forall P (strip s).
Proof.
  intros H. unfold strip, rstrip.
  apply Forall_rev, Forall_lstrip, Forall_rev, Forall_lstrip, H.
Qed.

Lemma token_rev (t : str) : token t -> token (rev t).
Proof.
  intros [Hne Hs]. split.
  - intros E. apply Hne. rewrite <- (rev_involutive t), E. reflexivity.
  - now apply Forall_rev.
Qed.

Lemma token_head_ok (t rest : str) : token t -> head_ok (t ++ rest).
Proof.
  intros [Hne Hs]. destruct t as [|c t]; [congruence|].
  simpl. now inversion Hs.
Qed.

Lemma join_cons2 (sep t t2 : str) (rest : list str) :
  join sep (t :: t2 :: rest) = t ++ sep ++ join sep (t2 :: rest).
Proof. reflexivity. Qed.

Lemma join_head_ok (sep : str) (toks : list str) :
  Forall token toks -> head_ok (join sep toks).
Proof.
  intros H. destruct H as [|t rest Ht Hrest]; [exact I|].
  destruct rest as [|t2 rest].
  - simpl. rewrite <- (app_nil_r t). now apply token_head_ok.
  - rewrite join_cons2. now apply token_head_ok.
Qed.

Lemma join_snoc (sep : str) (toks : list str) (t : str) :
  toks <> [] -> join sep (toks ++ [t]) = join sep toks ++ sep ++ t.
Proof.
  induction toks as [|a toks IH]; [congruence|]. intros _.
  destruct toks as [|b toks]; [reflexivity|].
  change ((a :: b :: toks) ++ [t]) with (a :: b :: (toks ++ [t])).
  rewrite !join_cons2.
  change (b :: toks ++ [t]) with ((b :: toks) ++ [t]).
  rewrite IH by congruence. now rewrite <- !app_assoc.
Qed.

Lemma rev_join (sep : str) (toks : list str) :
  rev (join sep toks) = join (rev sep) (map (@rev codepoint) (rev toks)).
Proof.
  induction toks as [|a toks IH]; [reflexivity|].
  destruct toks as [|b toks]; [reflexivity|].
  rewrite join_cons2, !rev_app_distr, IH.
  change (rev (a :: b :: toks)) with (rev (b :: toks) ++ [a]).
  rewrite map_app.
  change (map (@rev codepoint) [a]) with [rev a].
  rewrite join_snoc; [now rewrite <- app_assoc|].
  intros E. apply (f_equal (@List.length _)) in E.
  rewrite length_map in E. simpl in E. rewrite length_app in E. simpl in E. lia.
Qed.

Lemma strip_join (sep : str) (toks : list str) :
  Forall token toks -> strip (join sep toks) = join sep toks.
Proof.
  intros H. apply strip_id; [now apply join_head_ok|].
  rewrite rev_join. apply join_head_ok.
  apply Forall_map, Forall_rev.
  eapply Forall_impl; [|exact H]. apply token_rev.
Qed.

(** Reading a token, then its separator. *)
Lemma split_go_token (t tok rest : str) :
  Forall (fun c => isspace c = false) t ->
  split_go tok (t ++ rest) = split_go (rev t ++ tok) rest.
Proof.
  revert tok. induction t as [|c t IH]; intros tok H; [reflexivity|].
  inversion H as [|? ? Hc Ht]; subst. simpl. rewrite Hc, IH by assumption.
  now rewrite <- app_assoc.
Qed.

Lemma split_join (sp : codepoint) (toks : list str) :
  isspace sp = true -> Forall token toks -> split (join [sp] toks) = toks.
Proof.
  intros Hsp H. unfold split. induction H as [|t rest [Hne Ht] Hrest IH].
  - reflexivity.
  - destruct rest as [|t2 rest].
    + simpl join.
      assert (E0 : split_go [] t = split_go (rev t ++ []) [])
        by (rewrite <- split_go_token by assumption; now rewrite app_nil_r).
      rewrite E0, app_nil_r. simpl.
      destruct (rev t) eqn:E.
      * exfalso. apply Hne. rewrite <- (rev_involutive t), E. reflexivity.
      * rewrite <- E, rev_involutive. reflexivity.
    + rewrite join_cons2, split_go_token by assumption.
      rewrite app_nil_r.
      change ([sp] ++ join [sp] (t2 :: rest)) with (sp :: join [sp] (t2 :: rest)).
      cbn [split_go]. rewrite Hsp.
      destruct (rev t) eqn:E.
      * exfalso. apply Hne. rewrite <- (rev_involutive t), E. reflexivity.
      * rewrite <- E, rev_involutive, IH. reflexivity.
Qed.

(** What [split] returns are tokens, made of the characters it read. *)
Lemma split_go_tokens (P : codepoint -> Prop) (s tok : str) :
  Forall (fun c => isspace c = true \/ P c) s ->
  Forall (fun c => isspace c = false /\ P c) tok ->
  Forall (fun t => token t /\ Forall P t) (split_go tok s).
Proof.
  assert (Hfin : forall tok, tok <> [] ->
            Forall (fun c => isspace c = false /\ P c) tok ->
            token (rev tok) /\ Forall P (rev tok)).
  { intros k Hne Hk. split; [split|].
    - intros E. apply Hne. rewrite <- (rev_involutive k), E. reflexivity.
    - apply Forall_rev. eapply Forall_impl; [|exact Hk]. now intros ? [? ?].
    - apply Forall_rev. eapply Forall_impl; [|exact Hk]. now intros ? [? ?]. }
  intros Hs. revert tok. induction Hs as [|c s Hc Hs IH]; intros tok Htok; simpl.
  - destruct tok; [constructor|]. constructor; [|constructor].
    apply Hfin; [congruence|assumption].
  - destruct (isspace c) eqn:Ec.
    + destruct tok as [|k tok].
      * apply IH. constructor.
      * constructor; [apply Hfin; [congruence|assumption]|].
        apply IH. constructor.
    + apply IH. constructor; [|assumption].
      split; [assumption|]. destruct Hc as [Hc|Hc]; [congruence|assumption].
Qed.

Lemma split_tokens (P : codepoint -> Prop) (s : str) :
  Forall (fun c => isspace c = true \/ P c) s ->
  Forall (fun t => token t /\ Forall P t) (split s).
Proof. intros H. apply split_go_tokens; [assumption|constructor]. Qed.

Lemma flat_map_join (f : codepoint -> str) (sep : str) (toks : list str) :
  flat_map f (join sep toks) = join (flat_map f sep) (map (flat_map f) toks).
Proof.
  induction toks as [|a toks IH]; [reflexivity|].
  destruct toks as [|b toks]; [reflexivity|].
  rewrite join_cons2, !flat_map_app, IH. reflexivity.
Qed.

Lemma filter_join (p : codepoint -> bool) (sep : str) (toks : list str) :
  filter p (join sep toks) = join (filter p sep) (map (filter p) toks).
Proof.
  induction toks as [|a toks IH]; [reflexivity|].
  destruct toks as [|b toks]; [reflexivity|].
  rewrite join_cons2, !filter_app, IH. reflexivity.
Qed.

Lemma flat_map_singleton (f : codepoint -> str) (s : str) :
  Forall (fun c => f c = [c]) s -> flat_map f s = s.
Proof.
  induction 1 as [|c s Hc Hs IH]; [reflexivity|]. simpl. now rewrite Hc, IH.
Qed.

Lemma filter_flat_map (p : codepoint -> bool) (f : codepoint -> str) (s : str) :
  filter p (flat_map f s) = flat_map (fun c => filter p (f c)) s.
Proof.
  induction s as [|c s IH]; [reflexivity|]. simpl. now rewrite filter_app, IH.
Qed.

Lemma filter_all (p : codepoint -> bool) (s : str) :
  Forall (fun c => p c = true) s -> filter p s = s.
Proof.
  induction 1 as [|c s Hc Hs IH]; [reflexivity|]. simpl. now rewrite Hc, IH.
Qed.

Lemma Forall_join (P : codepoint -> Prop) (sep : str) (toks : list str) :
  Forall P sep -> Forall (Forall P) toks -> Forall P (join sep toks).
Proof.
  intros Hsep H. induction H as [|t rest Ht Hrest IH]; [constructor|].
  destruct rest as [|t2 rest]; [assumption|].
  rewrite join_cons2. apply Forall_app. split; [assumption|].
  apply Forall_app. split; assumption.
Qed.

(** *** Canonical ordering only moves marks *)

Lemma reorder_insert_filter (x : codepoint) (acc : str) :
  filter starter (reorder_insert x acc) = filter starter (x :: acc).
Proof.
  induction acc as [|y acc IH]; [reflexivity|].
  simpl reorder_insert.
  destruct (N.ltb 0 (combining x) && N.ltb (combining x) (combining y)) eqn:E;
    [|reflexivity].
  apply andb_prop in E. destruct E as [E1 E2].
  apply N.ltb_lt in E1.
  assert (Hx : starter x = false) by (unfold starter; apply N.eqb_neq; lia).
  simpl in *. rewrite Hx in *. destruct (starter y); now rewrite IH.
Qed.

Lemma fold_reorder_filter (s acc : str) :
  filter starter (fold_left (fun acc x => reorder_insert x acc) s acc)
  = filter starter (rev s ++ acc).
Proof.
  revert acc. induction s as [|x s IH]; intros acc; [reflexivity|].
  simpl fold_left. rewrite IH, !filter_app, reorder_insert_filter.
  simpl rev. rewrite filter_app, <- app_assoc.
  change (x :: acc) with ([x] ++ acc). now rewrite filter_app.
Qed.

Lemma filter_rev (A : Type) (p : A -> bool) (l : list A) :
  filter p (rev l) = rev (filter p l).
Proof.
  induction l as [|a l IH]; [reflexivity|].
  simpl. rewrite filter_app, IH. simpl. destruct (p a); simpl.
  - reflexivity.
  - now rewrite app_nil_r.
Qed.

Lemma canonical_order_filter (s : str) :
  filter starter (canonical_order s) = filter starter s.
Proof.
  unfold canonical_order.
  rewrite filter_rev, fold_reorder_filter, app_nil_r, filter_rev.
  apply rev_involutive.
Qed.

Lemma fold_reorder_starters (s acc : str) :
  Forall (fun c => combining c = 0%N) s ->
  fold_left (fun acc x => reorder_insert x acc) s acc = rev s ++ acc.
Proof.
  intros H. revert acc. induction H as [|x s Hx Hs IH]; intros acc; [reflexivity|].
  simpl. rewrite IH, <- app_assoc. f_equal.
  destruct acc as [|y acc]; [reflexivity|]. simpl. now rewrite Hx.
Qed.

Lemma canonical_order_starters (s : str) :
  Forall (fun c => combining c = 0%N) s -> canonical_order s = s.
Proof.
  intros H. unfold canonical_order.
  rewrite fold_reorder_starters, app_nil_r by assumption. apply rev_involutive.
Qed.

(** [normalize_name] keeps the starters of the decomposed tokens. *)
Lemma normalize_name_tokens (s : str) :
  decompose 32%N = [32%N] -> combining 32%N = 0%N ->
  normalize_name (Some s)
  = join [32%N]
      (map (fun t => filter starter (flat_map decompose t))
           (split (upper (strip s)))).
Proof.
  intros Hd Hc. unfold normalize_name, nfkd.
  change (fun c : codepoint => N.eqb (combining c) 0%N) with starter.
  rewrite canonical_order_filter.
  change (lit " ") with [32%N].
  rewrite flat_map_join, filter_join, map_map. simpl flat_map.
  rewrite Hd. simpl. unfold starter at 1. rewrite Hc. reflexivity.
Qed.

End PyStrFacts.

(** ** [normalize_name] applied twice *)

Section Stability.
Context {U : UnicodeData}.

Lemma fixedb_spec (c : codepoint) :
  fixedb c = true ->
  toupper c = [c] /\ decompose c = [c] /\ combining c = 0%N.
Proof.
  unfold fixedb. intros H.
  apply andb_prop in H. destruct H as [H H3].
  apply andb_prop in H. destruct H as [H1 H2].
  apply str_eqb_eq in H1, H2. apply N.eqb_eq in H3. auto.
Qed.

Lemma stableb_spec (c : codepoint) :
  stableb c = true -> isspace c = false /\ fixedb c = true.
Proof.
  unfold stableb. intros H. apply andb_prop in H. destruct H as [H1 H2].
  apply negb_true_iff in H1. auto.
Qed.

Lemma goodb_spec (u : codepoint) :
  goodb u = true ->
  filter starter (decompose u) <> []
  /\ Forall (fun c => stableb c = true) (filter starter (decompose u)).
Proof.
  unfold goodb. intros H. apply andb_prop in H. destruct H as [_ H].
  destruct (filter starter (decompose u)) as [|a o]; [discriminate|].
  split; [congruence|]. apply Forall_forall. now apply forallb_forall.
Qed.

(** The stripped decomposition of a token of good characters is a token of
    stable characters. *)
Lemma good_token_stable (t : str) :
  t <> [] -> Forall (fun u => goodb u = true) t ->
  token (filter starter (flat_map decompose t))
  /\ Forall (fun c => fixedb c = true) (filter starter (flat_map decompose t)).
Proof.
  intros Hne H. rewrite filter_flat_map.
  assert (Hall : Forall (fun c => stableb c = true)
                   (flat_map (fun c => filter starter (decompose c)) t)).
  { clear Hne. induction H as [|u t Hu Ht IH]; [constructor|]. simpl.
    apply Forall_app. split; [now apply goodb_spec|assumption]. }
  split; [split|].
  - destruct t as [|u t]; [congruence|]. inversion H as [|? ? Hu Ht]; subst.
    simpl. destruct (goodb_spec _ Hu) as [Hn _].
    destruct (filter starter (decompose u)); [congruence|discriminate].
  - eapply Forall_impl; [|exact Hall]. intros c Hc. now apply stableb_spec.
  - eapply Forall_impl; [|exact Hall]. intros c Hc. now apply stableb_spec.
Qed.

(** On plain characters, with a fixed space, a second pass of
    [normalize_name] changes nothing. *)
Lemma normalize_name_idempotent_plain (s : str) :
  space_fixedb = true ->
  Forall (fun c => plainb c = true) s ->
  normalize_name (Some (normalize_name (Some s))) = normalize_name (Some s).
Proof.
  intros Hsp Hs.
  unfold space_fixedb in Hsp. apply andb_prop in Hsp. destruct Hsp as [Hsp Hfix].
  destruct (fixedb_spec _ Hfix) as (Hup & Hde & Hcc).
  (* the tokens of the first pass *)
  assert (Hupper : Forall (fun u => isspace u = true \/ goodb u = true)
                     (upper (strip s))).
  { unfold upper. apply Forall_flat_map.
    eapply Forall_impl; [|apply Forall_strip, Hs].
    intros c Hc. apply Forall_forall. intros u Hu.
    unfold plainb in Hc. rewrite forallb_forall in Hc.
    apply orb_prop. now apply Hc. }
  pose proof (split_tokens _ Hupper) as Htok.
  rewrite (normalize_name_tokens s Hde Hcc).
  set (T := map (fun t => filter starter (flat_map decompose t))
                (split (upper (strip s)))).
  assert (HT : Forall token T /\ Forall (Forall (fun c => fixedb c = true)) T).
  { unfold T. split; apply Forall_map;
      (eapply Forall_impl; [|exact Htok]); intros t [[Hne _] Hg];
      now apply good_token_stable. }
  destruct HT as [HT1 HT2].
  assert (Hfixed : Forall (fun c => fixedb c = true) (join [32%N] T)).
  { apply Forall_join; [now constructor|assumption]. }
  (* the second pass *)
  rewrite (normalize_name_tokens _ Hde Hcc).
  rewrite strip_join by assumption.
  assert (Eup : upper (join [32%N] T) = join [32%N] T).
  { apply flat_map_singleton. eapply Forall_impl; [|exact Hfixed].
    intros c Hc. now apply fixedb_spec. }
  rewrite Eup, split_join by assumption.
  f_equal. rewrite <- (map_id T) at 2. apply map_ext_Forall.
  eapply Forall_impl; [|exact HT2]. intros t Ht.
  rewrite flat_map_singleton.
  - apply filter_all. eapply Forall_impl; [|exact Ht].
    intros c Hc. unfold starter. apply N.eqb_eq. now apply fixedb_spec.
  - eapply Forall_impl; [|exact Ht]. intros c Hc. now apply fixedb_spec.
Qed.

End Stability.

Lemma name_char_plain (c : codepoint) :
  name_char c = true -> @plainb Latin1 c = true.
Proof.
  intros H.
  assert (Hall : forallb (fun c => negb (name_char c) || @plainb Latin1 c)
                         (map N.of_nat (seq 0 256)) = true) by (vm_compute; reflexivity).
  rewrite forallb_forall in Hall.
  assert (Hin : In c (map N.of_nat (seq 0 256))).
  { apply in_map_iff. exists (N.to_nat c). split; [apply N2Nat.id|].
    apply in_seq. unfold name_char in H.
    apply andb_prop in H. destruct H as [H _]. apply N.leb_le in H. lia. }
  specialize (Hall c Hin). rewrite H in Hall. exact Hall.
Qed.

(** C10 (as amended).  On every input made of Latin-1 characters
    (U+0000..U+00FF) other than the six marks U+00A8, U+00AA, U+00AF,
    U+00B4, U+00B8 and U+00BA, and on [None], [normalize_name] is
    idempotent: [normalize_name(normalize_name(s)) == normalize_name(s)]. *)
Theorem normalize_name_idempotent_latin (x : option str) :
  name_text x ->
  @normalize_name Latin1 (Some (@normalize_name Latin1 x))
  = @normalize_name Latin1 x.
Proof.
  destruct x as [s|]; simpl name_text; intros H.
  - apply normalize_name_idempotent_plain; [vm_compute; reflexivity|].
    eapply Forall_impl; [|exact H]. apply name_char_plain.
  - reflexivity.
Qed.

(** "  José  María " is such a name. *)
Lemma normalize_name_idempotent_latin_witness :
  let s := lit "  Jos" ++ [0xE9%N] ++ lit "  Mar" ++ [0xED%N] ++ lit "a " in
  name_text (Some s)
  /\ @normalize_name Latin1 (Some s) = lit "JOSE MARIA"
  /\ @normalize_name Latin1 (Some (@normalize_name Latin1 (Some s)))
     = @normalize_name Latin1 (Some s).
Proof.
  assert (H : name_text (Some (lit "  Jos" ++ [0xE9%N] ++ lit "  Mar"
                                 ++ [0xED%N] ++ lit "a ")))
    by (simpl; repeat constructor).
  split; [exact H|]. split; [vm_compute; reflexivity|].
  exact (normalize_name_idempotent_latin _ H).
Defined.

(** So are texts with a no-break space, a micro sign (whose capital is the
    Greek Mu), a superscript or a fraction. *)
Example normalize_name_latin1_signs :
  let s := [0xB5; 0xA0; 0x6D; 0xB2; 0x20; 0xBD; 0x85; 0xDF; 0xFF]%N in
  name_text (Some s)
  /\ @normalize_name Latin1 (Some s)
     = [0x39C; 0x20; 0x4D; 0x32; 0x20; 0x31; 0x2044; 0x32; 0x20; 0x53; 0x53; 0x59]%N.
Proof. split; [simpl; repeat constructor|vm_compute; reflexivity]. Qed.

(** C10 as stated fails on the feminine ordinal indicator U+00AA (as in the
    abbreviation "Mª"): it has no upper-case form, NFKD turns it into "a",
    and a second pass upper-cases that "a".  Each of the six marks left out
    above breaks idempotence in the same way, alone as a text. *)
Lemma normalize_name_not_idempotent :
  @normalize_name Latin1 (Some [0xAA%N]) = lit "a"
  /\ @normalize_name Latin1 (Some (@normalize_name Latin1 (Some [0xAA%N])))
     = lit "A"
  /\ @normalize_name Latin1 (Some (@normalize_name Latin1 (Some [0xAA%N])))
     <> @normalize_name Latin1 (Some [0xAA%N])
  /\ Forall (fun c =>
               @normalize_name Latin1 (Some (@normalize_name Latin1 (Some [c])))
               <> @normalize_name Latin1 (Some [c]))
            loose_marks.
Proof.
  split; [vm_compute; reflexivity|]. split; [vm_compute; reflexivity|].
  split; [vm_compute; discriminate|].
  repeat (apply Forall_cons; [vm_compute; discriminate|]). apply Forall_nil.
Qed.

(** The stand-alone acute accent U+00B4 decomposes into a space and a mark:
    the first pass leaves a space that the second pass strips. *)
Example normalize_name_acute :
  @normalize_name Latin1 (Some [0xB4%N]) = lit " "
  /\ @normalize_name Latin1 (Some (lit " ")) = [].
Proof. split; vm_compute; reflexivity. Qed.

(** ** [normalize_folio_key] *)

Lemma startswith_spec (s p : str) :
  startswith s p = true <-> exists r, s = p ++ r.
Proof.
  revert s. induction p as [|a p IH]; intros s.
  - split; [intros _; now exists s|now destruct s].
  - destruct s as [|b s]; simpl.
    + split; [discriminate|]. intros [r Hr]. discriminate.
    + rewrite andb_true_iff, N.eqb_eq, IH. split.
      * intros [-> [r ->]]. now exists r.
      * intros [r Hr]. injection Hr as -> ->. split; [reflexivity|now exists r].
Qed.

Lemma endswith_spec (s suffix : str) :
  endswith s suffix = true <-> exists h, s = h ++ suffix.
Proof.
  unfold endswith. rewrite startswith_spec. split.
  - intros [r Hr]. exists (rev r).
    rewrite <- (rev_involutive s), Hr, rev_app_distr, rev_involutive. reflexivity.
  - intros [h ->]. exists (rev h). apply rev_app_distr.
Qed.

Lemma drop_last_app (h suffix : str) :
  drop_last (List.length suffix) (h ++ suffix) = h.
Proof.
  unfold drop_last. rewrite length_app.
  replace (List.length h + List.length suffix - List.length suffix)%nat
    with (List.length h + 0)%nat by lia.
  rewrite firstn_app_2. simpl. apply app_nil_r.
Qed.

Lemma partition_at_some (sep : codepoint) (s l r : str) :
  partition_at sep s = Some (l, r) <-> s = l ++ sep :: r /\ ~ In sep l.
Proof.
  revert l. induction s as [|c s IH]; intros l; simpl.
  - split; [discriminate|]. intros [H _]. destruct l; discriminate.
  - destruct (N.eqb_spec c sep) as [->|Hc].
    + split.
      * intros H. injection H as <- <-. split; [reflexivity|intros []].
      * intros [H Hl]. destruct l as [|a l].
        -- now injection H as <-.
        -- injection H as <- _. exfalso. apply Hl. now left.
    + destruct (partition_at sep s) as [[l' r']|] eqn:E.
      * split.
        -- intros H. injection H as <- <-.
           destruct (proj1 (IH l') eq_refl) as [-> Hl]. split; [reflexivity|].
           intros [H|H]; [congruence|contradiction].
        -- intros [H Hl]. destruct l as [|a l]; [injection H; congruence|].
           injection H as <- H.
           assert (E' : Some (l', r') = Some (l, r)).
           { apply IH. split; [assumption|]. intros Hin. apply Hl. now right. }
           now injection E' as -> ->.
      * split; [discriminate|]. intros [H Hl].
        destruct l as [|a l]; [injection H; congruence|].
        injection H as <- H.
        assert (E' : None = Some (l, r)).
        { apply IH. split; [assumption|]. intros Hin. apply Hl. now right. }
        discriminate.
Qed.

Lemma partition_at_none (sep : codepoint) (s : str) :
  partition_at sep s = None -> forall l r, s <> l ++ sep :: r.
Proof.
  intros H l r E. revert l E. induction s as [|c s IH]; intros l E.
  - destruct l; discriminate.
  - simpl in H. destruct (N.eqb_spec c sep) as [->|Hc]; [discriminate|].
    destruct (partition_at sep s) as [[? ?]|]; [discriminate|].
    destruct l as [|a l]; [injection E; congruence|].
    injection E as _ E. now apply (IH eq_refl l).
Qed.

Lemma lstrip_char_nil (ch : codepoint) (s : str) :
  lstrip_char ch s = [] <-> Forall (eq ch) s.
Proof.
  induction s as [|c s IH]; simpl.
  - split; [constructor|reflexivity].
  - destruct (N.eqb_spec c ch) as [->|Hc].
    + rewrite IH. split; [now constructor|now inversion 1].
    + split; [discriminate|]. inversion 1; congruence.
Qed.

Lemma lstrip_char_head (ch : codepoint) (s : str) :
  match lstrip_char ch s with [] => True | c :: _ => c <> ch end.
Proof.
  induction s as [|c s IH]; simpl; [exact I|].
  destruct (N.eqb_spec c ch); [exact IH|assumption].
Qed.

Lemma strip_char_nil (ch : codepoint) (s : str) :
  strip_char ch s = [] <-> Forall (eq ch) s.
Proof.
  unfold strip_char. split.
  - intros H. apply lstrip_char_nil.
    assert (H1 : lstrip_char ch (rev (lstrip_char ch s)) = []).
    { rewrite <- (rev_involutive (lstrip_char ch _)), H. reflexivity. }
    apply lstrip_char_nil, Forall_rev in H1. rewrite rev_involutive in H1.
    pose proof (lstrip_char_head ch s) as Hh.
    destruct (lstrip_char ch s) as [|c t]; [reflexivity|].
    inversion H1; congruence.
  - intros H. apply lstrip_char_nil in H. rewrite H. reflexivity.
Qed.

Section FolioKey.
Context {U : UnicodeData}.

Lemma normalize_folio_key_rules_gen (x : option str) :
  let s := trimmed x in
  let k := normalize_folio_key x in
  (placeholder x /\ k = [])
  \/ (~ placeholder x /\ dot_zero_rule s k)
  \/ (~ placeholder x /\ (forall h, ~ dot_zero_rule s h) /\ fraction_rule s k)
  \/ (~ placeholder x /\ (forall h, ~ dot_zero_rule s h)
      /\ (forall l, ~ fraction_rule s l) /\ k = s).
Proof.
  destruct x as [sx|]; [|left; split; [now left|reflexivity]].
  cbv zeta. unfold normalize_folio_key. simpl trimmed.
  set (s := strip sx).
  destruct (match s with [] => true | _ => false end
            || str_eqb (lower s) (lit "nan")
            || str_eqb (lower s) (lit "none")) eqn:Eph.
  { left. split; [|reflexivity]. right. unfold trimmed. fold s.
    apply orb_prop in Eph. destruct Eph as [Eph|Eph].
    - apply orb_prop in Eph. destruct Eph as [Eph|Eph].
      + left. now apply is_nil_true.
      + right. left. now apply str_eqb_eq.
    - right. right. now apply str_eqb_eq. }
  assert (Hph : ~ placeholder (Some sx)).
  { unfold placeholder, trimmed. fold s. intros [H|[H|[H|H]]].
    - discriminate.
    - rewrite H in Eph. discriminate.
    - apply str_eqb_eq in H. rewrite H, orb_true_r in Eph. discriminate.
    - apply str_eqb_eq in H. rewrite H, orb_true_r in Eph. discriminate. }
  right.
  destruct (endswith s (lit ".0") && str_isdigit (drop_last 2 s)) eqn:Edz.
  { left. split; [assumption|].
    apply andb_prop in Edz. destruct Edz as [E1 E2].
    apply endswith_spec in E1. destruct E1 as [h Hh].
    assert (Ed : drop_last 2 s = h) by (rewrite Hh; apply (drop_last_app h (lit ".0"))).
    rewrite Ed in *. now split. }
  assert (Hdz : forall h, ~ dot_zero_rule s h).
  { intros h [Hh Hd].
    assert (Ed : drop_last 2 s = h) by (rewrite Hh; apply (drop_last_app h (lit ".0"))).
    assert (Ee : endswith s (lit ".0") = true) by (apply endswith_spec; now exists h).
    rewrite Ee, Ed, Hd in Edz. discriminate. }
  right.
  destruct (partition_at 46%N s) as [[l r]|] eqn:Ep.
  - apply partition_at_some in Ep. destruct Ep as [Hs Hl].
    destruct (str_isdigit l && match strip_char 48%N r with [] => true | _ => false end)
      eqn:Efr.
    + left. split; [assumption|]. split; [assumption|].
      apply andb_prop in Efr. destruct Efr as [E1 E2].
      exists r. repeat split; try assumption.
      apply strip_char_nil. now apply is_nil_true.
    + right. split; [assumption|]. split; [assumption|]. split; [|reflexivity].
      intros l' [r' (Hs' & Hl' & Hd' & Hz')].
      assert (E : Some (l, r) = Some (l', r')).
      { rewrite <- (proj2 (partition_at_some 46%N s l r) (conj Hs Hl)).
        apply partition_at_some. now split. }
      injection E as <- <-.
      apply strip_char_nil in Hz'. rewrite Hd', Hz' in Efr. discriminate.
  - right. split; [assumption|]. split; [assumption|]. split; [|reflexivity].
    intros l [r (Hs & _)]. exact (@partition_at_none 46%N s Ep l r Hs).
Qed.

End FolioKey.

(** C9 (as amended).  [normalize_folio_key] maps null, empty and the
    placeholders "nan"/"none" (any letter case, after trimming) to the empty
    string; any other input is trimmed, and then: if it ends in ".0" after an
    all-digit prefix, that prefix is returned; else if it is an all-digit
    part, a point and a fraction of zeros only, the all-digit part is
    returned; otherwise the trimmed string is returned unchanged.  So
    "4412.0" and "4412" both give "4412", "abc" stays "abc", and "" and
    "nan" give "". *)
Theorem normalize_folio_key_rules {U : UnicodeData} :
  (forall x : option str,
     let s := trimmed x in
     let k := normalize_folio_key x in
     (placeholder x /\ k = [])
     \/ (~ placeholder x /\ dot_zero_rule s k)
     \/ (~ placeholder x /\ (forall h, ~ dot_zero_rule s h) /\ fraction_rule s k)
     \/ (~ placeholder x /\ (forall h, ~ dot_zero_rule s h)
         /\ (forall l, ~ fraction_rule s l) /\ k = s))
  /\ @normalize_folio_key Latin1 (Some (lit "4412.0")) = lit "4412"
  /\ @normalize_folio_key Latin1 (Some (lit "4412")) = lit "4412"
  /\ @normalize_folio_key Latin1 (Some (lit "abc")) = lit "abc"
  /\ @normalize_folio_key Latin1 (Some (lit "")) = lit ""
  /\ @normalize_folio_key Latin1 (Some (lit "nan")) = lit "".
Proof.
  split; [exact normalize_folio_key_rules_gen|].
  repeat split; vm_compute; reflexivity.
Qed.

(** C9 as stated fails on "abc.00": the point is followed by zeros only, so
    the stated rule drops ".00"; the code asks for digits before the point
    and returns the text unchanged. *)
Lemma folio_key_fraction_counterexample :
  @claimed_join_key Latin1 (Some (lit "abc.00")) = lit "abc"
  /\ @normalize_folio_key Latin1 (Some (lit "abc.00")) = lit "abc.00"
  /\ @normalize_folio_key Latin1 (Some (lit "abc.00"))
     <> @claimed_join_key Latin1 (Some (lit "abc.00")).
Proof.
  split; [vm_compute; reflexivity|]. split; [vm_compute; reflexivity|].
  vm_compute. discriminate.
Qed.

(** Where the part before the point is all digits the stated rule and the
    code agree. *)
Example folio_key_fraction_digits :
  @normalize_folio_key Latin1 (Some (lit " 12.000 ")) = lit "12"
  /\ @claimed_join_key Latin1 (Some (lit " 12.000 ")) = lit "12"
  /\ @normalize_folio_key Latin1 (Some (lit " NaN ")) = []
  /\ @normalize_folio_key Latin1 None = [].
Proof. repeat split; vm_compute; reflexivity. Qed.

(** ** Grouping *)

Lemma str_compare_eq (a b : str) : str_compare a b = Eq <-> a = b.
Proof.
  revert b. induction a as [|x a IH]; intros [|y b]; simpl;
    try (split; [discriminate|discriminate]); [split; reflexivity|].
  destruct (N.compare_spec x y) as [->|H|H].
  - rewrite IH. split; [now intros ->|congruence].
  - split; [discriminate|]. intros E. injection E as -> _. lia.
  - split; [discriminate|]. intros E. injection E as -> _. lia.
Qed.

Section SortedFacts.
Variable A : Type.
Variable cmp : A -> A -> comparison.
Hypothesis cmp_eq : forall a b, cmp a b = Eq <-> a = b.

Lemma insert_sorted_in (k x : A) (ks : list A) :
  In x (insert_sorted cmp k ks) <-> x = k \/ In x ks.
Proof.
  induction ks as [|k' ks IH]; simpl.
  - intuition congruence.
  - destruct (cmp k k') eqn:E; simpl.
    + apply cmp_eq in E. subst. intuition congruence.
    + intuition congruence.
    + rewrite IH. intuition congruence.
Qed.

Lemma sorted_unique_in (x : A) (ks : list A) :
  In x (sorted_unique cmp ks) <-> In x ks.
Proof.
  induction ks as [|k ks IH]; simpl; [reflexivity|].
  rewrite insert_sorted_in, IH. intuition congruence.
Qed.

End SortedFacts.

Lemma find_none_all (A : Type) (p : A -> bool) (l : list A) :
  (forall x, In x l -> p x = false) -> find p l = None.
Proof.
  induction l as [|a l IH]; intros H; [reflexivity|]. simpl.
  rewrite (H a (or_introl eq_refl)). apply IH. intros x Hx. apply H. now right.
Qed.

(** Looking a key up in a grouped table finds the rows that carry it. *)
Lemma groupby_find (R B : Type) (key : R -> str) (f : str * list R -> B)
      (kof : B -> str) (rows : list R) (k : str) :
  (forall kg, kof (f kg) = fst kg) ->
  find (fun b => str_eqb (kof b) k) (map f (groupby key rows))
  = match filter (fun r => str_eqb (key r) k) rows with
    | [] => None
    | grp => Some (f (k, grp))
    end.
Proof.
  intros Hk. unfold groupby.
  assert (Hin : In k (sorted_unique str_compare (map key rows))
                <-> filter (fun r => str_eqb (key r) k) rows <> []).
  { rewrite (@sorted_unique_in _ _ str_compare_eq). split.
    - intros H. apply in_map_iff in H. destruct H as (r & Hr & Hin).
      intros E. assert (Hf : In r (filter (fun r => str_eqb (key r) k) rows)).
      { apply filter_In. split; [assumption|]. now apply str_eqb_eq. }
      rewrite E in Hf. destruct Hf.
    - intros H. destruct (filter (fun r => str_eqb (key r) k) rows) as [|r l] eqn:E;
        [congruence|].
      assert (Hf : In r (filter (fun r => str_eqb (key r) k) rows))
        by (rewrite E; now left).
      apply filter_In in Hf. destruct Hf as [Hr Hkey].
      apply str_eqb_eq in Hkey. subst k. now apply in_map. }
  revert Hin. generalize (sorted_unique str_compare (map key rows)) as ks.
  induction ks as [|k' ks IH]; intros Hin; simpl.
  - destruct (filter (fun r => str_eqb (key r) k) rows); [reflexivity|].
    exfalso. apply (proj2 Hin); congruence.
  - rewrite Hk. simpl fst. destruct (str_eqb k' k) eqn:E.
    + apply str_eqb_eq in E. subst k'.
      destruct (filter (fun r => str_eqb (key r) k) rows) eqn:Ef; [|reflexivity].
      exfalso. apply (proj1 Hin); [now left|reflexivity].
    + destruct (filter (fun r => str_eqb (key r) k) rows) as [|r l] eqn:Ef.
      * apply find_none_all. intros b Hb. apply in_map_iff in Hb.
        destruct Hb as ([k2 g2] & <- & Hb). rewrite Hk. simpl.
        apply in_map_iff in Hb. destruct Hb as (k3 & Hb & Hk3).
        injection Hb as -> <-. apply str_eqb_neq. intros ->.
        apply (proj1 Hin); [now right|reflexivity].
      * apply IH. split; [congruence|]. intros _.
        destruct (proj2 Hin) as [H|H]; [congruence| |assumption].
        apply str_eqb_neq in E. congruence.
Qed.

(** Every row of a grouped table collects the rows of one key. *)
Lemma groupby_rows (R : Type) (key : R -> str) (rows : list R) (k : str)
      (grp : list R) :
  In (k, grp) (groupby key rows) ->
  grp = filter (fun r => str_eqb (key r) k) rows /\ grp <> [].
Proof.
  unfold groupby. intros H. apply in_map_iff in H.
  destruct H as (k' & E & Hin). injection E as -> <-. split; [reflexivity|].
  apply (proj1 (@sorted_unique_in _ _ str_compare_eq _ _)) in Hin.
  apply in_map_iff in Hin. destruct Hin as (r & Hr & Hin).
  intros E. assert (Hf : In r (filter (fun r => str_eqb (key r) k) rows)).
  { apply filter_In. split; [assumption|]. now apply str_eqb_eq. }
  rewrite E in Hf. destruct Hf.
Qed.

(** ** Delivery records *)

Section ProgramadasFacts.
Context {U : UnicodeData}.

Lemma load_programadas_filtered (df : list programada) :
  load_programadas_split_by_exec df
  = map split_row_of (groupby vendedor (filter (fun r => negb (is_canc r)) df)).
Proof. destruct df; reflexivity. Qed.

Lemma isin_In (s : str) (set : list str) : isin s set = true <-> In s set.
Proof.
  unfold isin. rewrite existsb_exists. split.
  - intros (k & Hk & E). apply str_eqb_eq in E. now subst.
  - intros H. exists s. split; [assumption|apply str_eqb_refl].
Qed.

Lemma _venta_vacia_blank (v : pyval) : _venta_vacia v = true <-> venta_blank v.
Proof.
  unfold venta_blank. destruct v as [| |s]; simpl.
  - split; auto.
  - split; auto.
  - rewrite !orb_true_iff, !str_eqb_eq. split.
    + intros H. right. right. exists s. tauto.
    + intros [H|[H|(s' & E & H)]]; try discriminate.
      injection E as <-. tauto.
Qed.


Lemma sum_indicator (p : programada -> bool) (l : list programada) :
  sumZ (map (fun r => int_of_bool (p r)) l) = count p l.
Proof.
  unfold count. induction l as [|r l IH]; [reflexivity|].
  simpl. rewrite IH. destruct (p r); simpl int_of_bool; simpl List.length; lia.
Qed.

Lemma count_split (p : programada -> bool) (l : list programada) :
  count (fun r => negb (p r)) l + count p l = Z.of_nat (List.length l).
Proof.
  unfold count. rewrite <- Nat2Z.inj_add. f_equal.
  induction l as [|r l IH]; [reflexivity|].
  simpl. destruct (p r); simpl; lia.
Qed.


End ProgramadasFacts.




Section ClassificationFacts.
Context {U : UnicodeData}.

Lemma is_canc_spec (r : programada) : is_canc r = true <-> canc_error r.
Proof. unfold is_canc, canc_error. apply str_eqb_eq. Qed.

Lemma is_canc_false (r : programada) : is_canc r = false <-> ~ canc_error r.
Proof. unfold is_canc, canc_error. apply str_eqb_neq. Qed.


Lemma others_spec (v : str) (df : list programada) :
  others v df
  = filter (fun r => str_eqb (vendedor r) v)
           (filter (fun r => negb (is_canc r)) df).
Proof.
  unfold others. induction df as [|r df IH]; [reflexivity|]. cbn [filter].
  destruct (canc_error_dec r) as [H|H].
  - apply is_canc_spec in H. rewrite H. cbn [negb]. exact IH.
  - apply is_canc_false in H. rewrite H. cbn [negb filter]. unfold vendedor at 1.
    destruct (str_eqb (strip (astype_str (VENDEDOR r))) v); now rewrite IH.
Qed.






End ClassificationFacts.



(** A status with a trailing qualifier is none of the six that the query
    asks for.  On such a record the two readings would part: "En entrega
    parcial" holds EN ENTREGA between word boundaries, and the split, which
    compares whole statuses, would count it as completed. *)
Example delivery_status_outside_query :
  let r := mkprogramada (PyStr (lit "ANA")) (PyStr (lit "En entrega parcial"))
                        (PyStr (lit "123")) in
  @est_norm Latin1 r = lit "EN ENTREGA PARCIAL"
  /\ ~ @from_programadas_query Latin1 r
  /\ @claimed_in_transit Latin1 r
  /\ @is_transito Latin1 r = false.
Proof.
  cbv zeta.
  assert (E : @est_norm Latin1
                (mkprogramada (PyStr (lit "ANA")) (PyStr (lit "En entrega parcial"))
                              (PyStr (lit "123")))
              = lit "EN ENTREGA PARCIAL") by (vm_compute; reflexivity).
  split; [exact E|]. split; [|split; [|vm_compute; reflexivity]].
  - unfold from_programadas_query, QUERY_ESTATUS. rewrite E. cbn [In].
    vm_compute. intuition discriminate.
  - right. left. exists (lit "EN ENTREGA"). split; [now left|].
    rewrite E. exists [], (lit " PARCIAL").
    split; [reflexivity|]. split; [exact I|vm_compute; reflexivity].
Qed.

(** The sales feed has a flag of its own, [IS_TRANSITO] of [load_ventas]:
    that one matches the phrases between word boundaries, and knows
    TRANSITO and statuses that begin with ENTREGAD as well. *)
Example sales_flag_matches_inside :
  let sale (st : str) plan := mkventa_sql (PyStr st) plan PyNone PyNaN in
  @IS_TRANSITO Latin1 (sale (lit "En entrega parcial") (PyStr (lit "PLAN 1"))) = true
  /\ @IS_TRANSITO Latin1 (sale (lit "En transito") (PyStr (lit "PLAN 1"))) = true
  /\ @IS_TRANSITO Latin1 (sale (lit "Reentrega") (PyStr (lit "PLAN 1"))) = false
  /\ @IS_TRANSITO Latin1 (sale (lit "Entregado") PyNone) = true
  /\ @IS_TRANSITO Latin1 (sale (lit "Entregado") (PyStr (lit "PLAN 1"))) = false.
Proof. repeat split; vm_compute; reflexivity. Qed.

(** C8.  In the split per seller, the records whose normalised status is
    CANC ERROR are left out before anything is counted: taking such a record
    away changes nothing, and for every seller [hechas_mes], [transito_mes]
    and [total_mes] count the seller's other records only (completed, in
    transit, all); a seller without other records has no row. *)
Theorem canc_error_excluded {U : UnicodeData} (df : list programada) :
  (forall l1 r l2,
     df = l1 ++ r :: l2 -> est_norm r = lit "CANC ERROR" ->
     load_programadas_split_by_exec df
     = load_programadas_split_by_exec (l1 ++ l2))
  /\ (forall v,
        match split_of v (load_programadas_split_by_exec df) with
        | None => others v df = []
        | Some g =>
            g_VENDEDOR g = v
            /\ hechas_mes g = count (fun r => negb (is_transito r)) (others v df)
            /\ transito_mes g = count is_transito (others v df)
            /\ total_mes g = Z.of_nat (List.length (others v df))
        end)
  /\ (forall g,
        In g (load_programadas_split_by_exec df) ->
        split_of (g_VENDEDOR g) (load_programadas_split_by_exec df) = Some g).
Proof.
  split; [|split].
  - intros l1 r l2 -> Hc. apply is_canc_spec in Hc.
    rewrite !load_programadas_filtered.
    rewrite !filter_app. simpl. now rewrite Hc.
  - intros v. unfold split_of. rewrite load_programadas_filtered.
    rewrite (groupby_find vendedor split_row_of g_VENDEDOR _ v)
      by (intros [k grp]; reflexivity).
    rewrite <- (others_spec v df).
    destruct (others v df) as [|r l] eqn:E; [reflexivity|].
    rewrite <- E. simpl.
    rewrite (sum_indicator (fun r => negb (is_transito r))), (sum_indicator is_transito).
    repeat split. apply count_split.
  - intros g Hg. unfold split_of. rewrite load_programadas_filtered in *.
    apply in_map_iff in Hg. destruct Hg as ([k grp] & <- & Hin).
    apply groupby_rows in Hin. destruct Hin as [-> Hne].
    rewrite (groupby_find vendedor split_row_of g_VENDEDOR _ k)
      by (intros [k' grp']; reflexivity).
    simpl g_VENDEDOR.
    destruct (filter (fun r => str_eqb (vendedor r) k)
                     (filter (fun r => negb (is_canc r)) df)); congruence.
Qed.

(** Ana has a delivery on its way, a cancellation error and a completed
    delivery: with or without the cancellation error her row is the same. *)
Lemma canc_error_excluded_witness :
  let a := mkprogramada (PyStr (lit " ana ")) (PyStr (lit "En entrega")) (PyStr (lit "1")) in
  let c := mkprogramada (PyStr (lit "ana")) (PyStr (lit "Canc Error")) (PyStr (lit "2")) in
  let b := mkprogramada (PyStr (lit "ana")) (PyStr (lit "Entregado")) (PyStr (lit "3")) in
  @est_norm Latin1 c = lit "CANC ERROR"
  /\ @load_programadas_split_by_exec Latin1 [a; c; b]
     = @load_programadas_split_by_exec Latin1 [a; b]
  /\ @load_programadas_split_by_exec Latin1 [a; b]
     = [mksplit_row (lit "ana") 1 1 2 (lit "ANA")]
  /\ @others Latin1 (lit "ana") [a; c; b] = [a; b].
Proof.
  cbv zeta.
  assert (E : @est_norm Latin1
                (mkprogramada (PyStr (lit "ana")) (PyStr (lit "Canc Error"))
                              (PyStr (lit "2")))
              = lit "CANC ERROR") by (vm_compute; reflexivity).
  split; [exact E|]. split; [|split; vm_compute; reflexivity].
  exact (proj1 (@canc_error_excluded Latin1 _) [_] _ [_] eq_refl E).
Defined.

(** Two sellers, one cancellation each way. *)
Example canc_error_excluded_example :
  @load_programadas_split_by_exec Latin1
    [mkprogramada (PyStr (lit " ana ")) (PyStr (lit "En entrega")) (PyStr (lit "1"));
     mkprogramada (PyStr (lit "ana")) (PyStr (lit "Canc Error")) (PyStr (lit "2"));
     mkprogramada (PyStr (lit "ana")) (PyStr (lit "Entregado")) (PyStr (lit "3"));
     mkprogramada (PyStr (lit "Zoe")) (PyStr (lit "canc  error")) PyNone]
  = [mksplit_row (lit "ana") 1 1 2 (lit "ANA")].
Proof. vm_compute. reflexivity. Qed.

(** ** Business calendar *)

Lemma weekday_range (d : date) : 0 <= weekday d <= 6.
Proof. unfold weekday. pose proof (Z.mod_pos_bound (toordinal d + 6) 7). lia. Qed.

Lemma date_eqb_same_year (d : date) (m k : Z) :
  date_eqb d (mkdate (year d) m k) = true <-> month d = m /\ day d = k.
Proof.
  unfold date_eqb. simpl. rewrite !andb_true_iff, !Z.eqb_eq. tauto.
Qed.

(** [_nth_weekday_of_month] returns the [n]-th [wd] of the month. *)
Lemma nth_weekday_of_month_spec (d : date) (m wd n : Z) :
  0 <= wd <= 6 -> 1 <= day d ->
  date_eqb d (_nth_weekday_of_month (year d) m wd n) = true
  <-> is_nth_weekday d m wd n.
Proof.
  intros Hwd Hday. unfold _nth_weekday_of_month, replace_day.
  cbn [year month day].
  rewrite date_eqb_same_year. unfold is_nth_weekday, weekday, toordinal.
  cbn [year month day].
  split.
  - intros [Hm Hd]. split; [assumption|]. rewrite Hm.
    set (o := days_before_year (year d) + days_before_month (year d) m) in *.
    clearbody o. Z.div_mod_to_equations. lia.
  - intros (Hm & Hw & Hr). split; [assumption|]. rewrite Hm in *.
    set (o := days_before_year (year d) + days_before_month (year d) m) in *.
    clearbody o. Z.div_mod_to_equations. lia.
Qed.

Lemma date_in_puentes (d : date) :
  1 <= day d ->
  date_in d (mexico_puentes (year d)) = true <-> is_holiday d.
Proof.
  intros Hday. unfold date_in, mexico_puentes, is_holiday.
  cbn [existsb]. rewrite !orb_true_iff, !date_eqb_same_year.
  rewrite !(nth_weekday_of_month_spec d) by lia.
  intuition discriminate.
Qed.

Lemma date_ltb_irrefl (d : date) : date_ltb d d = false.
Proof.
  unfold date_ltb. rewrite !Z.ltb_irrefl, !Z.eqb_refl. reflexivity.
Qed.

Lemma workable_equiv_between_day (d : date) :
  workable_equiv_between d d
  = if date_in d (mexico_puentes (year d)) then 0%Q
    else if weekday d <=? 4 then (0 + 1)%Q
    else if weekday d =? 5 then (0 + (1 # 2))%Q
    else 0%Q.
Proof.
  unfold workable_equiv_between, date_range.
  rewrite date_ltb_irrefl, Z.sub_diag.
  change (Z.to_nat (0 + 1)) with 1%nat.
  cbn [days_from fold_left]. unfold workable_step.
  rewrite Z.eqb_refl. cbn [negb].
  destruct (date_in d (mexico_puentes (year d))); [reflexivity|].
  destruct (weekday d <=? 4); [reflexivity|].
  destruct (weekday d =? 5); reflexivity.
Qed.

(** C6.  For every date [d], the business-day-equivalent of [d..d] is 0 on
    a holiday (also when it is a Saturday), and otherwise 1 from Monday to
    Friday, one half on a Saturday and 0 on a Sunday; the holidays are
    1 January, the first Monday of February, the third Monday of March,
    1 May, 16 September, the third Monday of November and 25 December of
    the year of [d]. *)
Theorem workable_equiv_single_day (d : date) :
  valid_date d ->
  (is_holiday d -> (workable_equiv_between d d == 0)%Q)
  /\ (~ is_holiday d ->
      (0 <= weekday d <= 4 -> (workable_equiv_between d d == 1)%Q)
      /\ (weekday d = 5 -> (workable_equiv_between d d == 1 # 2)%Q)
      /\ (weekday d = 6 -> (workable_equiv_between d d == 0)%Q)).
Proof.
  intros (_ & _ & Hday & _).
  rewrite workable_equiv_between_day.
  pose proof (date_in_puentes d Hday) as Hh.
  destruct (date_in d (mexico_puentes (year d))).
  - split; [reflexivity|]. intros Hn. exfalso. apply Hn, Hh. reflexivity.
  - split; [intros H; apply Hh in H; discriminate|]. intros _.
    repeat split.
    + intros Hw. destruct (Z.leb_spec (weekday d) 4); [reflexivity|lia].
    + intros Hw. rewrite Hw. reflexivity.
    + intros Hw. rewrite Hw. reflexivity.
Qed.

(** Monday 3 February 2025 is the first Monday of February, Saturday
    1 February 2025 is an ordinary Saturday. *)
Lemma workable_equiv_single_day_witness :
  valid_date (mkdate 2025 2 3) /\ is_holiday (mkdate 2025 2 3)
  /\ (workable_equiv_between (mkdate 2025 2 3) (mkdate 2025 2 3) == 0)%Q
  /\ (workable_equiv_between (mkdate 2025 2 1) (mkdate 2025 2 1) == 1 # 2)%Q.
Proof.
  assert (V : valid_date (mkdate 2025 2 3)) by (vm_compute; intuition discriminate).
  assert (H : is_holiday (mkdate 2025 2 3)).
  { right. left. vm_compute. intuition discriminate. }
  split; [exact V|]. split; [exact H|]. split.
  - exact (proj1 (workable_equiv_single_day V) H).
  - vm_compute. reflexivity.
Defined.

(** ** Rolling average *)

Lemma first_nonzero_none (win : list Z) :
  first_nonzero win = None <-> Forall (fun v => v = 0) win.
Proof.
  induction win as [|v w IH]; simpl.
  - split; [constructor|reflexivity].
  - destruct (Z.eqb_spec v 0) as [->|Hv].
    + destruct (first_nonzero w); simpl.
      * split; [discriminate|]. inversion 1 as [|? ? _ Hw]; subst.
        apply IH in Hw. discriminate.
      * split; [|reflexivity]. intros _. constructor; [reflexivity|now apply IH].
    + split; [discriminate|]. inversion 1; congruence.
Qed.

Lemma first_nonzero_lt (win : list Z) (i : nat) :
  first_nonzero win = Some i -> (i < List.length win)%nat.
Proof.
  revert i. induction win as [|v w IH]; intros i; simpl; [discriminate|].
  destruct (v =? 0).
  - destruct (first_nonzero w) as [j|]; simpl; [|discriminate].
    intros E. injection E as <-. specialize (IH j eq_refl). lia.
  - intros E. injection E as <-. lia.
Qed.

(** On counts, the mask [win > 0] finds the first nonzero month. *)
Lemma mask_first_nonzero (win : list Z) :
  Forall (fun v => 0 <= v) win ->
  match first_nonzero win with
  | None => any (map (fun v => 0 <? v) win) = false
  | Some i => any (map (fun v => 0 <? v) win) = true
              /\ argmax (map (fun v => 0 <? v) win) = i
  end.
Proof.
  induction 1 as [|v w Hv Hw IH]; simpl; [reflexivity|].
  destruct (Z.eqb_spec v 0) as [->|Hne].
  - simpl. destruct (first_nonzero w) as [j|]; simpl.
    + destruct IH as [IH1 IH2]. rewrite IH1, IH2. split; reflexivity.
    + exact IH.
  - assert (E : (0 <? v) = true) by (apply Z.ltb_lt; lia).
    rewrite E. simpl. split; reflexivity.
Qed.

Lemma cumsum_from_length (acc : Z) (l : list Z) :
  List.length (cumsum_from acc l) = List.length l.
Proof.
  revert acc. induction l as [|x l IH]; intros acc; simpl; [reflexivity|].
  now rewrite IH.
Qed.

Lemma cumsum_from_nth (acc : Z) (l : list Z) (j : nat) :
  (j < List.length l)%nat ->
  nth j (cumsum_from acc l) 0 = acc + sumZ (firstn (S j) l).
Proof.
  revert acc j. induction l as [|x l IH]; intros acc j Hj; simpl in Hj; [lia|].
  destruct j as [|j].
  - simpl. lia.
  - cbn [cumsum_from nth]. rewrite IH by lia.
    change (firstn (S (S j)) (x :: l)) with (x :: firstn (S j) l).
    cbn [sumZ fold_right]. fold (sumZ (firstn (S j) l)). lia.
Qed.

Lemma sumZ_app (a b : list Z) : sumZ (a ++ b) = sumZ a + sumZ b.
Proof.
  induction a as [|x a IH]; simpl; [reflexivity|].
  unfold sumZ in *. simpl. rewrite IH. lia.
Qed.

Lemma sumZ_rev (l : list Z) : sumZ (rev l) = sumZ l.
Proof.
  induction l as [|x l IH]; [reflexivity|].
  simpl rev. rewrite sumZ_app, IH. unfold sumZ. simpl. lia.
Qed.

(** The reversed running sum of the reversed window holds, at [i], the sum
    of the months from [i] on. *)
Lemma suffix_sum_nth (win : list Z) (i : nat) :
  (i < List.length win)%nat ->
  nth i (rev (cumsum (rev win))) 0 = sumZ (skipn i win).
Proof.
  intros Hi. unfold cumsum.
  rewrite rev_nth by (rewrite cumsum_from_length, length_rev; exact Hi).
  rewrite cumsum_from_length, length_rev.
  rewrite cumsum_from_nth by (rewrite length_rev; lia).
  rewrite firstn_rev, sumZ_rev. simpl. f_equal. f_equal. lia.
Qed.

(** C3.  On a window of at least one month of zero-filled counts: if every
    count is zero the flag [has_nz] is off and the rolling average is 0;
    otherwise the flag is on and the average is the sum of the counts from
    the first nonzero month to the end of the window, divided by the number
    of months from that month to the end, later zeros included.  The
    window [0, 0, 5, 3] gives (5 + 3) / 2 = 4. *)
Theorem rolling_average_spec (win : list Z) :
  win <> [] ->
  Forall (fun v => 0 <= v) win ->
  (Forall (fun v => v = 0) win ->
     has_nz win = false /\ prom_ult_3m win = Some 0%Q)
  /\ (~ Forall (fun v => v = 0) win ->
      exists i,
        first_nonzero win = Some i
        /\ has_nz win = true
        /\ prom_ult_3m win
           = Some (inject_Z (sumZ (skipn i win))
                   / inject_Z (Z.of_nat (List.length win - i)))%Q)
  /\ (exists q, prom_ult_3m [0; 0; 5; 3] = Some q /\ (q == 4)%Q).
Proof.
  intros Hne Hpos.
  pose proof (mask_first_nonzero Hpos) as Hmask.
  assert (Hprom : prom_ult_3m win
                  = Some (if any (map (fun v => 0 <? v) win)
                          then (inject_Z (nth (if any (map (fun v => 0 <? v) win)
                                               then argmax (map (fun v => 0 <? v) win)
                                               else O)
                                              (rev (cumsum (rev win))) 0%Z)
                                / inject_Z (Z.of_nat
                                    (List.length win
                                     - (if any (map (fun v => 0 <? v) win)
                                        then argmax (map (fun v => 0 <? v) win)
                                        else O))))%Q
                          else 0%Q)).
  { destruct win; [congruence|reflexivity]. }
  split; [|split].
  - intros Hz. apply first_nonzero_none in Hz. rewrite Hz in Hmask.
    unfold has_nz. rewrite Hprom, Hmask. split; reflexivity.
  - intros Hnz. destruct (first_nonzero win) as [i|] eqn:E.
    + destruct Hmask as [Hany Harg]. exists i. split; [reflexivity|].
      unfold has_nz. rewrite Hprom, Hany, Harg. split; [reflexivity|].
      rewrite suffix_sum_nth by (now apply first_nonzero_lt). reflexivity.
    + exfalso. apply Hnz. now apply first_nonzero_none.
  - eexists. split; [reflexivity|]. reflexivity.
Qed.

(** Three months, the first without sales, the last a bad month. *)
Lemma rolling_average_spec_witness :
  [0; 6; 0] <> [] /\ Forall (fun v => 0 <= v) [0; 6; 0]
  /\ first_nonzero [0; 6; 0] = Some 1%nat
  /\ prom_ult_3m [0; 6; 0] = Some (inject_Z 6 / inject_Z 2)%Q.
Proof.
  assert (Hne : [0; 6; 0] <> []) by discriminate.
  assert (Hpos : Forall (fun v => 0 <= v) [0; 6; 0]) by (repeat constructor; lia).
  split; [exact Hne|]. split; [exact Hpos|].
  destruct (proj1 (proj2 (rolling_average_spec Hne Hpos))) as (i & Hi & _ & Hq).
  - intros H. inversion H as [|? ? _ H']. inversion H' as [|? ? H6 _]. discriminate.
  - split; [reflexivity|]. vm_compute. reflexivity.
Defined.

Lemma traverse_in (A B : Type) (f : A -> option B) (l : list A) (ys : list B) (y : B) :
  traverse f l = Some ys -> In y ys -> exists x, In x l /\ f x = Some y.
Proof.
  revert ys. induction l as [|x l IH]; intros ys; simpl.
  - intros E. injection E as <-. intros [].
  - destruct (f x) as [y0|] eqn:Ex; [|discriminate].
    destruct (traverse f l) as [ys0|]; [|discriminate].
    intros E. injection E as <-. intros [<-|Hin].
    + exists x. split; [now left|assumption].
    + destruct (IH ys0 eq_refl Hin) as (x' & Hx' & Ef).
      exists x'. split; [now right|assumption].
Qed.

(** The window of a row of the quota table is what [rolling_average_spec]
    asks for: at least one month, counts of sales, and the row's average is
    the rolling average of that window. *)
Lemma rolling_average_rows {U : UnicodeData} (S : session) (view : list metas_row)
      (r : metas_row) :
  df_metas_view S = Some view -> In r view ->
  last3 r = map (Ventas_mes (df_meta_base S) (m_EJECUTIVO r)) (meta_window_keys S)
  /\ last3 r <> []
  /\ Forall (fun v => 0 <= v) (last3 r)
  /\ prom_ult_3m (last3 r) = Some (m_prom_ult_3m r).
Proof.
  intros Hview Hin. unfold df_metas_view in Hview.
  destruct (df_meta_base S) as [|v0 base0] eqn:Eb; [discriminate|].
  destruct (filter _ _) as [|a0 rest] eqn:Ea; [discriminate|]. rewrite <- Ea in *.
  edestruct traverse_in as (ej & Hej & Hrow); [exact Hview|exact Hin|].
  cbv beta in Hrow.
  destruct (prom_ult_3m _) as [prom|] eqn:Ep; [|discriminate].
  injection Hrow as <-. cbn [last3 m_EJECUTIVO m_prom_ult_3m].
  split; [reflexivity|]. split; [|split; [|exact Ep]].
  - intros E. rewrite E in Ep. discriminate.
  - apply Forall_map, Forall_forall. intros mk _. unfold Ventas_mes. lia.
Qed.

(** ** Quota policy *)

Lemma astype_int_inject (k j : Z) : astype_int (inject_Z k + inject_Z j) = k + j.
Proof.
  unfold astype_int, inject_Z, Qplus. cbn [Qnum Qden].
  change (Z.pos (1 * 1)) with 1. rewrite Z.quot_1_r. lia.
Qed.

Lemma meta_mes_policy (ten : Z) (prom : Q) : meta_mes ten prom = quota_policy ten prom.
Proof.
  unfold meta_mes, quota_policy, quota_table, first_match, applies, quota_of, np_floor.
  destruct (ten <? 41); [reflexivity|].
  destruct (Qle_bool 7 prom); [apply (astype_int_inject (Qfloor prom) 1)|].
  destruct (Qle_bool 6 prom); [apply (astype_int_inject (Qfloor prom) 2)|].
  reflexivity.
Qed.

(** C2.  The quota follows the decision table, first matching rule
    winning: 6 below 41 days of tenure; else floor(prom) + 1 from an
    average of 7; else floor(prom) + 2 from an average of 6; else 7.  Every
    row of the quota table of the month (active executives) carries the
    quota of its own tenure and rolling average; a tenure of 100 days and an
    average of 6.2 give 8. *)
Theorem quota_decision_table {U : UnicodeData} :
  (forall ten prom, meta_mes ten prom = quota_policy ten prom)
  /\ (forall ten prom,
        quota_policy ten prom
        = if ten <? 41 then 6
          else if Qle_bool 7 prom then Qfloor prom + 1
          else if Qle_bool 6 prom then Qfloor prom + 2
          else 7)
  /\ (forall S view r,
        df_metas_view S = Some view -> In r view ->
        m_status r = ACTIVO
        /\ meta_mes_actual r
           = quota_policy (dias_activo_al_1ro r) (m_prom_ult_3m r))
  /\ meta_mes 100 (62 # 10) = 8.
Proof.
  split; [exact meta_mes_policy|]. split; [reflexivity|].
  split; [|reflexivity].
  intros S view r Hview Hin. unfold df_metas_view in Hview.
  destruct (df_meta_base S); [discriminate|].
  set (activos := filter _ _) in Hview.
  assert (Hact : forall ej, In ej activos -> status_of S ej = ACTIVO).
  { intros ej Hej. apply filter_In in Hej. destruct Hej as [_ Hs].
    destruct (status_of S ej); [reflexivity|discriminate]. }
  destruct activos as [|a0 rest] eqn:Ea; [discriminate|]. rewrite <- Ea in *.
  edestruct traverse_in as (ej & Hej & Hrow); [exact Hview|exact Hin|].
  cbv beta in Hrow.
  destruct (prom_ult_3m _) as [prom|]; [|discriminate].
  injection Hrow as <-. cbn [m_status meta_mes_actual dias_activo_al_1ro m_prom_ult_3m].
  split; [now apply Hact|apply meta_mes_policy].
Qed.

(** The other examples of the specification. *)
Example quota_examples :
  meta_mes 10 20 = 6 /\ meta_mes 100 (78 # 10) = 8 /\ meta_mes 100 3 = 7
  /\ meta_mes 40 7 = 6 /\ meta_mes 41 7 = 8 /\ meta_mes 41 6 = 8
  /\ meta_mes 41 (599 # 100) = 7.
Proof. repeat split. Qed.

(** ** Inactive executives *)

Lemma baja_override_status (r : sim_row) :
  sim_status (baja_override r) = sim_status r.
Proof. unfold baja_override. destruct (status_eqb (sim_status r) BAJA); reflexivity. Qed.

Lemma baja_override_meta (r : sim_row) :
  sim_status r = BAJA -> meta_simulacion (baja_override r) = 0.
Proof. unfold baja_override. intros ->. reflexivity. Qed.

Lemma sum_without_baja (rows : list sim_row) :
  (forall r, In r rows -> sim_status r = BAJA -> meta_simulacion r = 0) ->
  sumZ (map meta_simulacion rows)
  = sumZ (map meta_simulacion
            (filter (fun r => status_eqb (sim_status r) ACTIVO) rows)).
Proof.
  induction rows as [|r rows IH]; intros H; [reflexivity|].
  cbn [map filter]. destruct (sim_status r) eqn:E; cbn [status_eqb map].
  - unfold sumZ in *. cbn [fold_right]. rewrite IH; [reflexivity|].
    intros r' Hr'. apply H. now right.
  - unfold sumZ in *. cbn [fold_right].
    rewrite (H r (or_introl eq_refl) E), IH; [reflexivity|].
    intros r' Hr'. apply H. now right.
Qed.

(** The rows of the quota table of the month, one per active executive. *)
Lemma df_metas_view_rows {U : UnicodeData} (S : session) (view : list metas_row)
      (r : metas_row) :
  df_metas_view S = Some view -> In r view ->
  status_of S (m_EJECUTIVO r) = ACTIVO /\ m_status r = ACTIVO.
Proof.
  intros Hview Hin. unfold df_metas_view in Hview.
  destruct (df_meta_base S); [discriminate|].
  set (activos := filter _ _) in Hview.
  assert (Hact : forall ej, In ej activos -> status_of S ej = ACTIVO).
  { intros ej Hej. apply filter_In in Hej. destruct Hej as [_ Hs].
    destruct (status_of S ej); [reflexivity|discriminate]. }
  destruct activos as [|a0 rest] eqn:Ea; [discriminate|]. rewrite <- Ea in *.
  edestruct traverse_in as (ej & Hej & Hrow); [exact Hview|exact Hin|].
  cbv beta in Hrow.
  destruct (prom_ult_3m _) as [prom|]; [|discriminate].
  injection Hrow as <-. cbn [m_status m_EJECUTIVO].
  split; now apply Hact.
Qed.

(** C4.  An executive whose status is BAJA has quota 0 in the quota
    tables, whatever the tenure and the rolling average: in the simulation
    every BAJA row carries 0, so the total is the sum over the active rows;
    the quota table of the month, from which the team, centre and global
    quotas are summed, has rows of active executives only, so an inactive
    executive adds 0 to every total. *)
Theorem baja_quota_zero {U : UnicodeData} (S : session) :
  (forall rows,
     df_sim S = Some rows ->
     (forall r, In r rows -> sim_status r = BAJA -> meta_simulacion r = 0)
     /\ meta_total_all rows
        = sumZ (map meta_simulacion
                  (filter (fun r => status_eqb (sim_status r) ACTIVO) rows)))
  /\ (forall view,
        df_metas_view S = Some view ->
        (forall r, In r view ->
           m_status r = ACTIVO /\ status_of S (m_EJECUTIVO r) = ACTIVO)
        /\ (forall ej,
              status_of S ej = BAJA ->
              sumZ (map meta_mes_actual
                      (filter (fun r => str_eqb (m_EJECUTIVO r) ej) view)) = 0)).
Proof.
  split.
  - intros rows Hsim.
    assert (Hz : forall r, In r rows -> sim_status r = BAJA -> meta_simulacion r = 0).
    { unfold df_sim in Hsim. destruct (df_export_base S); [discriminate|].
      destruct (traverse _ _) as [rows'|]; [|discriminate].
      injection Hsim as <-. intros r Hr Hs.
      apply in_map_iff in Hr. destruct Hr as (r' & <- & _).
      rewrite baja_override_status in Hs. now apply baja_override_meta. }
    split; [exact Hz|]. unfold meta_total_all. now apply sum_without_baja.
  - intros view Hview. split.
    + intros r Hr. destruct (@df_metas_view_rows _ S view r Hview Hr). now split.
    + intros ej Hej.
      assert (E : filter (fun r => str_eqb (m_EJECUTIVO r) ej) view = []).
      { destruct (filter _ view) as [|r l] eqn:Ef; [reflexivity|]. exfalso.
        assert (Hr : In r (filter (fun r => str_eqb (m_EJECUTIVO r) ej) view))
          by (rewrite Ef; now left).
        apply filter_In in Hr. destruct Hr as [Hr Hk]. apply str_eqb_eq in Hk.
        destruct (@df_metas_view_rows _ S view r Hview Hr) as [Hs _]. congruence. }
      rewrite E. reflexivity.
Qed.

(** In the demo session Luis has no sale in April, the last month of the
    simulated interval: his row is BAJA with quota 0, where 87 days of
    tenure and his average would give 7; he has no row in the quota table
    of May. *)
Example baja_quota_zero_demo :
  exists rows view,
    @df_sim Latin1 demo = Some rows
    /\ @df_metas_view Latin1 demo = Some view
    /\ map (fun r => (sim_status r, sim_dias_activo_al_1ro r, meta_simulacion r)) rows
       = [(ACTIVO, 472, 7); (ACTIVO, 21, 6); (BAJA, 87, 0)]
    /\ meta_mes 87 (1 # 3) = 7
    /\ meta_total_all rows = 13
    /\ map (fun r => (m_EJECUTIVO r, meta_mes_actual r)) view
       = [(lit "ANA", 7); (lit "EVA", 6)].
Proof.
  eexists. eexists. split; [vm_compute; reflexivity|].
  split; [vm_compute; reflexivity|]. repeat split.
Qed.

(** ** Gap tables *)

Section SanityFacts.
Context {U : UnicodeData}.
Variable S : session.

Lemma load_total (df : list programada) (g : split_row) :
  In g (load_programadas_split_by_exec df) ->
  total_mes g = hechas_mes g + transito_mes g.
Proof.
  rewrite load_programadas_filtered. intros H. apply in_map_iff in H.
  destruct H as ([k grp] & <- & _). reflexivity.
Qed.

Lemma merge_left_in (view : list metas_row) (split : list split_row)
      (m : metas_row) (og : option split_row) :
  In (m, og) (merge_left view split) ->
  In m view /\ (og = None \/ exists g, og = Some g /\ In g split).
Proof.
  unfold merge_left. intros H. apply in_flat_map in H.
  destruct H as (r & Hr & H).
  destruct (filter _ split) as [|g0 gs] eqn:Ef.
  - destruct H as [H|[]]. injection H as <- <-. split; [assumption|now left].
  - rewrite <- Ef in H. apply in_map_iff in H. destruct H as (g & E & Hg).
    injection E as <- <-. split; [assumption|]. right. exists g.
    split; [reflexivity|]. apply filter_In in Hg. tauto.
Qed.

Lemma sanity_exec_row_identity (m : metas_row) (og : option split_row) :
  (og = None \/ exists g, og = Some g /\ total_mes g = hechas_mes g + transito_mes g) ->
  row_identity (sanity_exec_row S (m, og)).
Proof.
  unfold row_identity, sanity_exec_row.
  cbn [total_ventas_hechas_mes ventas_hechas_mes ventas_en_transito_mes gap_meta
       s_meta_mes_actual].
  intros [->|(g & -> & Hg)]; cbn [fill0]; lia.
Qed.

Lemma sums_identity (members : list sanity_row) :
  Forall row_identity members ->
  sumZ (map total_ventas_hechas_mes members)
  = sumZ (map ventas_hechas_mes members) + sumZ (map ventas_en_transito_mes members)
  /\ sumZ (map gap_meta members)
     + (sumZ (map ventas_hechas_mes members)
        + sumZ (map ventas_en_transito_mes members))
     = sumZ (map s_meta_mes_actual members).
Proof.
  induction 1 as [|r l (H1 & H2 & H3) Hl [IH1 IH2]]; [split; reflexivity|].
  unfold sumZ in *. cbn [map fold_right]. lia.
Qed.

Lemma sanity_agg_identity (members : list sanity_row) :
  Forall row_identity members -> group_identity members (sanity_agg S members).
Proof.
  intros H. destruct (sums_identity H) as [H1 H2].
  unfold group_identity, sanity_agg.
  cbn [ventas_hechas ventas_en_transito total_ventas_hechas meta_group gap_group].
  repeat split; assumption.
Qed.

(** What [sanity] returns: rows built from the merge, and their rollups. *)
Lemma sanity_tables_shape (T : sanity_tables) :
  sanity S = Some T ->
  exists merged,
    (forall m og, In (m, og) merged ->
       og = None \/ exists g, og = Some g
                       /\ total_mes g = hechas_mes g + transito_mes g)
    /\ df_sanity_exec T = map (sanity_exec_row S) merged
    /\ df_sanity_team T
       = map (fun kg => (fst kg, sanity_agg S (snd kg)))
             (groupby s_Supervisor (df_sanity_exec T))
    /\ df_sanity_centro T
       = map (fun kg => (fst kg, sanity_agg S (snd kg)))
             (groupby s_CentroKey (df_sanity_exec T))
    /\ df_sanity_global T = sanity_agg S (df_sanity_exec T).
Proof.
  unfold sanity. destruct (df_metas_view S) as [view|]; [|discriminate].
  destruct (Qle_bool (dias_hab_eq_total S) 0); [discriminate|].
  intros E. injection E as <-.
  cbn [df_sanity_exec df_sanity_team df_sanity_centro df_sanity_global].
  eexists. split; [|repeat split; reflexivity].
  intros m og Hin. unfold prog_split in Hin.
  destruct (programadas S) as [df|].
  - apply merge_left_in in Hin. destruct Hin as [_ [H|(g & -> & Hg)]]; [now left|].
    right. exists g. split; [reflexivity|]. now apply (load_total df).
  - apply in_map_iff in Hin. destruct Hin as (r & E & _).
    injection E as _ <-. now left.
Qed.

Lemma sanity_rows_identity (T : sanity_tables) :
  sanity S = Some T -> Forall row_identity (df_sanity_exec T).
Proof.
  intros H. destruct (sanity_tables_shape H) as (merged & Hm & -> & _).
  apply Forall_forall. intros r Hr. apply in_map_iff in Hr.
  destruct Hr as ([m og] & <- & Hin). apply sanity_exec_row_identity.
  now apply (Hm m og).
Qed.

Lemma Forall_filter (A : Type) (P : A -> Prop) (p : A -> bool) (l : list A) :
  Forall P l -> Forall P (filter p l).
Proof.
  intros H. apply Forall_forall. intros x Hx. apply filter_In in Hx.
  rewrite Forall_forall in H. now apply H.
Qed.

End SanityFacts.

(** C1.  In the tables of the sanity check, every executive row has
    [total = completed + in transit], [gap = quota - total] and so
    [gap + (completed + in transit) = quota]; every team, centre and global
    row holds the sums of its members' columns, and the same identity. *)
Theorem gap_identity {U : UnicodeData} (S : session) (T : sanity_tables) :
  sanity S = Some T ->
  (forall r, In r (df_sanity_exec T) -> row_identity r)
  /\ (forall k g, In (k, g) (df_sanity_team T) ->
        group_identity
          (filter (fun r => str_eqb (s_Supervisor r) k) (df_sanity_exec T)) g)
  /\ (forall k g, In (k, g) (df_sanity_centro T) ->
        group_identity
          (filter (fun r => str_eqb (s_CentroKey r) k) (df_sanity_exec T)) g)
  /\ group_identity (df_sanity_exec T) (df_sanity_global T).
Proof.
  intros H. pose proof (@sanity_rows_identity _ S T H) as Hrows.
  destruct (@sanity_tables_shape _ S T H) as (merged & _ & _ & Ht & Hc & Hg).
  split; [now apply Forall_forall|].
  split; [|split].
  - intros k g Hin. rewrite Ht in Hin. apply in_map_iff in Hin.
    destruct Hin as ([k' grp] & E & Hin). injection E as -> <-.
    apply groupby_rows in Hin. destruct Hin as [-> _].
    apply sanity_agg_identity. now apply Forall_filter.
  - intros k g Hin. rewrite Hc in Hin. apply in_map_iff in Hin.
    destruct Hin as ([k' grp] & E & Hin). injection E as -> <-.
    apply groupby_rows in Hin. destruct Hin as [-> _].
    apply sanity_agg_identity. now apply Forall_filter.
  - rewrite Hg. now apply sanity_agg_identity.
Qed.

(** The tables of the demo session keep the identity. *)
Lemma gap_identity_witness :
  exists T,
    @sanity Latin1 demo = Some T
    /\ gap_group (df_sanity_global T) = 10
    /\ meta_group (df_sanity_global T) = 13
    /\ (forall r, In r (df_sanity_exec T) -> row_identity r)
    /\ group_identity (df_sanity_exec T) (df_sanity_global T).
Proof.
  eexists. split; [vm_compute; reflexivity|].
  split; [reflexivity|]. split; [reflexivity|].
  match goal with
  | |- (forall r, In r (df_sanity_exec ?T) -> _) /\ _ =>
      assert (H : @sanity Latin1 demo = Some T) by (vm_compute; reflexivity);
      pose proof (@gap_identity Latin1 demo T H) as (H1 & _ & _ & H4)
  end.
  split; [exact H1|exact H4].
Defined.

(** ** Required daily rate from today *)

Lemma workable_step_nonneg (start_d dts : date) (st : list date * Q) :
  (0 <= snd st)%Q -> (0 <= snd (workable_step start_d st dts))%Q.
Proof.
  destruct st as [p total]. unfold workable_step. cbn [snd]. intros H.
  destruct (date_in dts _); [exact H|].
  destruct (weekday dts <=? 4).
  - cbn [snd]. apply (Qle_trans _ (total + 0)%Q).
    + now rewrite Qplus_0_r.
    + apply Qplus_le_r. discriminate.
  - destruct (weekday dts =? 5); [|exact H].
    cbn [snd]. apply (Qle_trans _ (total + 0)%Q).
    + now rewrite Qplus_0_r.
    + apply Qplus_le_r. discriminate.
Qed.

Lemma workable_fold_nonneg (start_d : date) (days : list date) (st : list date * Q) :
  (0 <= snd st)%Q -> (0 <= snd (fold_left (workable_step start_d) days st))%Q.
Proof.
  revert st. induction days as [|d days IH]; intros st H; [exact H|].
  cbn [fold_left]. apply IH. now apply workable_step_nonneg.
Qed.

Lemma workable_equiv_between_nonneg (start_d end_d : date) :
  (0 <= workable_equiv_between start_d end_d)%Q.
Proof.
  unfold workable_equiv_between. destruct (date_ltb end_d start_d).
  - apply Qle_refl.
  - apply workable_fold_nonneg. apply Qle_refl.
Qed.

Lemma dias_hab_eq_remaining_nonneg (ym_key : month_key) (today_d : date) :
  (0 <= dias_hab_eq_remaining ym_key today_d)%Q.
Proof.
  unfold dias_hab_eq_remaining, month_bounds.
  destruct (date_leb today_d _).
  - apply workable_equiv_between_nonneg.
  - apply Qle_refl.
Qed.

Lemma for_rate_adjusted (rem : Q) :
  dias_hab_eq_remaining_for_rate rem = adjusted_remaining rem.
Proof.
  unfold dias_hab_eq_remaining_for_rate, adjusted_remaining, Qltb.
  destruct (Qlt_le_dec 0 rem) as [H0|H0].
  - assert (E0 : Qle_bool rem 0 = false).
    { destruct (Qle_bool rem 0) eqn:E; [|reflexivity].
      apply Qle_bool_iff in E. exfalso. now apply (Qlt_not_le _ _ H0). }
    rewrite E0. cbn [negb andb].
    destruct (Qlt_le_dec rem 1) as [H1|H1].
    + assert (E1 : Qle_bool 1 rem = false).
      { destruct (Qle_bool 1 rem) eqn:E; [|reflexivity].
        apply Qle_bool_iff in E. exfalso. now apply (Qlt_not_le _ _ H1). }
      now rewrite E1.
    + apply Qle_bool_iff in H1. now rewrite H1.
  - apply Qle_bool_iff in H0. now rewrite H0.
Qed.

Lemma adjusted_remaining_nonneg (rem : Q) :
  (0 <= rem)%Q -> (0 <= adjusted_remaining rem)%Q.
Proof.
  intros H. unfold adjusted_remaining.
  destruct (Qlt_le_dec 0 rem); [|exact H].
  destruct (Qlt_le_dec rem 1); [discriminate|exact H].
Qed.

Lemma desde_hoy_required (adj : Q) (gap : Z) :
  (0 <= adj)%Q -> desde_hoy adj gap = required_rate adj gap.
Proof.
  intros H. unfold desde_hoy, required_rate, clip_lower_0, Qltb.
  destruct (Qle_bool adj 0) eqn:E; cbn [negb].
  - apply Qle_bool_iff in E.
    assert (Ez : Qeq_bool adj 0 = true)
      by (apply Qeq_bool_iff; now apply Qle_antisym).
    now rewrite Ez.
  - destruct (Qeq_bool adj 0) eqn:Ez; [|reflexivity].
    apply Qeq_bool_iff in Ez. exfalso.
    assert (Hle : Qle_bool adj 0 = true)
      by (apply Qle_bool_iff; rewrite Ez; apply Qle_refl).
    congruence.
Qed.

(** C5.  In every table of the sanity check (executive, team, centre,
    global) the required daily rate from today is the positive part of the
    row's gap divided by the remaining business-day-equivalent of the month,
    a remaining value strictly between 0 and 1 being read as 1; when that
    adjusted value is 0 the rate is the positive part of the gap itself. *)
Theorem rate_from_today {U : UnicodeData} (S : session) (T : sanity_tables) :
  sanity S = Some T ->
  let adj :=
    adjusted_remaining (dias_hab_eq_remaining (meta_month_key S) (today S)) in
  (forall r, In r (df_sanity_exec T) ->
     ventas_diarias_necesarias_desde_hoy r = required_rate adj (gap_meta r))
  /\ (forall k g, In (k, g) (df_sanity_team T) ->
        sg_ventas_diarias_necesarias_desde_hoy g = required_rate adj (gap_group g))
  /\ (forall k g, In (k, g) (df_sanity_centro T) ->
        sg_ventas_diarias_necesarias_desde_hoy g = required_rate adj (gap_group g))
  /\ sg_ventas_diarias_necesarias_desde_hoy (df_sanity_global T)
     = required_rate adj (gap_group (df_sanity_global T)).
Proof.
  intros H adj.
  assert (Hrate : forall gap, desde_hoy (remaining_for_rate S) gap
                              = required_rate adj gap).
  { intros gap. unfold remaining_for_rate, remaining.
    rewrite for_rate_adjusted. apply desde_hoy_required.
    apply adjusted_remaining_nonneg, dias_hab_eq_remaining_nonneg. }
  destruct (@sanity_tables_shape _ S T H) as (merged & _ & He & Ht & Hc & Hg).
  split; [|split; [|split]].
  - intros r Hr. rewrite He in Hr. apply in_map_iff in Hr.
    destruct Hr as ([m og] & <- & _). apply Hrate.
  - intros k g Hin. rewrite Ht in Hin. apply in_map_iff in Hin.
    destruct Hin as ([k' grp] & E & _). injection E as _ <-. apply Hrate.
  - intros k g Hin. rewrite Hc in Hin. apply in_map_iff in Hin.
    destruct Hin as ([k' grp] & E & _). injection E as _ <-. apply Hrate.
  - rewrite Hg. apply Hrate.
Qed.

(** On Saturday 31 May 2025 half a day remains: it is read as one day, and
    the global gap of 10 asks for 10 sales a day. *)
Lemma rate_from_today_witness :
  exists T,
    @sanity Latin1 demo = Some T
    /\ (dias_hab_eq_remaining (meta_month_key demo) (today demo) == 1 # 2)%Q
    /\ adjusted_remaining (dias_hab_eq_remaining (meta_month_key demo) (today demo))
       = 1%Q
    /\ sg_ventas_diarias_necesarias_desde_hoy (df_sanity_global T)
       = required_rate
           (adjusted_remaining
              (dias_hab_eq_remaining (meta_month_key demo) (today demo)))
           (gap_group (df_sanity_global T)).
Proof.
  eexists. split; [vm_compute; reflexivity|].
  split; [vm_compute; reflexivity|]. split; [vm_compute; reflexivity|].
  match goal with
  | |- sg_ventas_diarias_necesarias_desde_hoy (df_sanity_global ?T) = _ =>
      assert (H : @sanity Latin1 demo = Some T) by (vm_compute; reflexivity);
      exact (proj2 (proj2 (proj2 (@rate_from_today Latin1 demo T H))))
  end.
Defined.

(* ================================================================== *)
(** * Part IV: more of the program                                     *)
(* ================================================================== *)

(** ** Week of the month *)

(** [T_WeekOfMonth]: [((day + first_wd - 1) // 7) + 1], [first_wd] being
    the week day of the first of the month. *)
Definition T_WeekOfMonth (d : date) : Z :=
  let first_wd := weekday (mkdate (year d) (month d) 1) in
  (day d + first_wd - 1) / 7 + 1.

(** ** Months of the defaults and of the window *)

(** [(cur - pd.DateOffset(months=i)).strftime("%Y-%m")], [cur] being the
    first of the month [k]. *)
Definition months_back (k : month_key) (i : Z) : month_key :=
  let t := mk_year k * 12 + (mk_month k - 1) - i in
  mkmonth (t / 12) (t mod 12 + 1).

(** [_prev_month_keys_excluding_current(n)], from the month of today. *)
Definition _prev_month_keys_excluding_current (cur : month_key) (n : nat)
  : list month_key :=
  map (fun i => months_back cur (Z.of_nat i)) (seq 1 n).

(** [l[a:b]] for a start [a >= 0]: a negative stop counts from the end. *)
Definition py_slice (A : Type) (l : list A) (a b : Z) : list A :=
  let n := Z.of_nat (List.length l) in
  let a' := Z.min a n in
  let b' := if b <? 0 then Z.max (b + n) 0 else Z.min b n in
  firstn (Z.to_nat (b' - a')) (skipn (Z.to_nat a') l).

(** [list.index(x)], [None] when [x] is not in the list. *)
Fixpoint index_of (A : Type) (eqb : A -> A -> bool) (x : A) (l : list A)
  : option Z :=
  match l with
  | [] => None
  | y :: l' =>
      if eqb y x then Some 0
      else match index_of eqb x l' with
           | Some i => Some (i + 1)
           | None => None
           end
  end.

(** [meta_window_keys]: the three months of [meta_month_options] before the
    selected one, or a fallback when there is none. *)
Definition meta_window (meta_month_options : list month_key)
           (meta_month_key : month_key) : list month_key :=
  let meta_idx :=
    match index_of month_key_eqb meta_month_key meta_month_options with
    | Some i => i
    | None => Z.of_nat (List.length meta_month_options) - 1
    end in
  let keys := py_slice meta_month_options (Z.max 0 (meta_idx - 3)) meta_idx in
  match keys with
  | [] => py_slice meta_month_options (Z.max 0 (meta_idx - 2)) (meta_idx + 1)
  | _ => keys
  end.

(** ** Centre of a sale *)

Section Centro.
Context {U : UnicodeData}.

Definition fix_centro (c : str) : str :=
  let c_up := upper c in
  if contains c_up (lit "JUAREZ") then lit "EXP ATT C CENTER JUAREZ"
  else if contains c_up (lit "CENTER 2") then lit "EXP ATT C CENTER 2"
  else c.

(** [np.where(df["CENTRO"].str.upper().str.contains("JUAREZ"), "JV", "CC2")] *)
Definition centro_key (centro : str) : str :=
  if contains (upper centro) (lit "JUAREZ") then lit "JV" else lit "CC2".

(** ** Supervisors *)

Record empleado := mkempleado {
  Nombre : str;
  e_Supervisor : str
}.

(** A sale as [load_ventas] returns it. *)
Record venta_cargada := mkventa_cargada {
  c_EJECUTIVO : str;
  c_FECHA_DE_CAPTURA : option date;
  c_CentroKey : str
}.

(** [add_supervisor_join]: every sale with the supervisor of each employee
    of the same normalised name, or with BAJA when there is none. *)
Definition add_supervisor_join (ventas_df : list venta_cargada)
           (empleados_df : list empleado) : list (venta_cargada * str) :=
  flat_map (fun v =>
    let ej_norm := normalize_name (Some (c_EJECUTIVO v)) in
    match filter (fun e => str_eqb (normalize_name (Some (strip (Nombre e)))) ej_norm)
                 empleados_df with
    | [] => [(v, lit "BAJA")]
    | es => map (fun e => (v, e_Supervisor e)) es
    end) ventas_df.

(** The sales of the page: joined, without the rows whose date did not
    parse, with the key of their month. *)
Definition ventas_of (ventas_raw : list venta_cargada)
           (empleados : list empleado) : list venta :=
  flat_map (fun vs : venta_cargada * str =>
    let (v, sup) := vs in
    match c_FECHA_DE_CAPTURA v with
    | None => []
    | Some t => [mkventa (c_EJECUTIVO v) (mkmonth (year t) (month t)) sup
                         (c_CentroKey v)]
    end) (add_supervisor_join ventas_raw empleados).

(** ** In transit by FOLIO *)

Record entrega := mkentrega {
  t_FOLIO : pyval;
  t_ESTATUS : pyval;
  t_VENTA : pyval
}.

(** [normalize_folio_key] on a cell: [str(x)] of a NaN is "nan". *)
Definition folio_key (x : pyval) : str :=
  normalize_folio_key
    match x with
    | PyNone => None
    | PyNaN => Some (lit "nan")
    | PyStr s => Some s
    end.

(** The flag of one row of [load_transito_flags]. *)
Definition entrega_en_transito (r : entrega) : bool :=
  let est_norm := normalize_name (Some (strip (astype_str (t_ESTATUS r)))) in
  isin est_norm TRANSITO_SET
  || (str_eqb est_norm (lit "ENTREGADO") && _venta_vacia (t_VENTA r)).

(** [groupby(...)["IS_TRANSITO"].max()] of a group of 0/1 flags *)
Definition max_flag (flags : list Z) : Z :=
  match flags with
  | [] => 0
  | x :: rest => fold_left Z.max rest x
  end.

(** [load_transito_flags], from the rows the query returned: FOLIO and
    IS_TRANSITO. *)
Definition load_transito_flags (df : list entrega) : list (str * bool) :=
  match df with
  | [] => []
  | _ =>
      let df := filter (fun r => negb (str_eqb (folio_key (t_FOLIO r)) [])) df in
      map (fun kg : str * list entrega =>
             (fst kg,
              negb (max_flag (map (fun r => int_of_bool (entrega_en_transito r))
                                  (snd kg)) =? 0)))
          (groupby (fun r => folio_key (t_FOLIO r)) df)
  end.

End Centro.

(** ** New hires *)

Section Nuevos.
Context {U : UnicodeData}.
Variable S : session.

(** [nuevos_ingresos_metas]: the effective start falls in the selected
    month, after its ninth day. *)
Definition nuevo_ingreso_metas (ej : str) : bool :=
  match _get_ingreso_dt_for_norm S (normalize_name (Some ej)) with
  | None => false
  | Some fd =>
      (year fd =? mk_year (meta_month_key S))
      && (month fd =? mk_month (meta_month_key S))
      && (9 <? day fd)
  end.

End Nuevos.

(* ================================================================== *)
(** * Part V: more properties                                          *)
(* ================================================================== *)

Unset Implicit Arguments.

(** ** Sorted keys *)

Section OrderFacts.
Variable A : Type.
Variable cmp : A -> A -> comparison.
Hypothesis cmp_eq : forall a b, cmp a b = Eq <-> a = b.
Hypothesis cmp_trans : forall a b c, cmp a b = Lt -> cmp b c = Lt -> cmp a c = Lt.
Hypothesis cmp_gt : forall a b, cmp a b = Gt -> cmp b a = Lt.

(** Strictly increasing. *)
Fixpoint increasing (l : list A) : Prop :=
  match l with
  | [] => True
  | a :: rest =>
      match rest with
      | [] => True
      | b :: _ => cmp a b = Lt
      end /\ increasing rest
  end.

Lemma increasing_head (a : A) (l : list A) (x : A) :
  increasing (a :: l) -> In x l -> cmp a x = Lt.
Proof.
  revert a. induction l as [|b l IH]; intros a H Hx; [destruct Hx|].
  destruct H as [Hab Hl]. destruct Hx as [<-|Hx]; [exact Hab|].
  eapply cmp_trans; [exact Hab|]. now apply IH.
Qed.

Lemma increasing_NoDup (l : list A) : increasing l -> NoDup l.
Proof.
  induction l as [|a l IH]; intros H; [constructor|].
  constructor.
  - intros Hin. pose proof (@increasing_head a l a H Hin) as E.
    assert (Eq' : cmp a a = Eq) by now apply cmp_eq. congruence.
  - apply IH. now destruct H.
Qed.

Lemma insert_sorted_increasing (k : A) (l : list A) :
  increasing l -> increasing (insert_sorted cmp k l).
Proof.
  induction l as [|a l IH]; intros H; [simpl; auto|].
  cbn [insert_sorted]. destruct (cmp k a) eqn:E.
  - exact H.
  - split; [exact E|exact H].
  - destruct H as [Hh Hl]. specialize (IH Hl).
    split; [|exact IH].
    destruct l as [|b l]; cbn [insert_sorted] in *.
    + now apply cmp_gt.
    + destruct (cmp k b) eqn:E2.
      * exact Hh.
      * now apply cmp_gt.
      * exact Hh.
Qed.

Lemma sorted_unique_increasing (l : list A) : increasing (sorted_unique cmp l).
Proof.
  induction l as [|a l IH]; [exact I|]. simpl. now apply insert_sorted_increasing.
Qed.

Lemma sorted_unique_NoDup (l : list A) : NoDup (sorted_unique cmp l).
Proof. apply increasing_NoDup, sorted_unique_increasing. Qed.

End OrderFacts.

Arguments increasing {A} cmp l.

Lemma str_compare_trans (a b c : str) :
  str_compare a b = Lt -> str_compare b c = Lt -> str_compare a c = Lt.
Proof.
  revert b c. induction a as [|x a IH]; intros [|y b] [|z c]; simpl;
    try discriminate; try reflexivity.
  destruct (N.compare_spec x y) as [->|Hxy|Hxy]; try discriminate.
  - destruct (N.compare_spec y z) as [->|Hyz|Hyz]; try discriminate.
    + apply IH.
    + reflexivity.
  - intros _. destruct (N.compare_spec y z) as [->|Hyz|Hyz]; try discriminate.
    + intros _. destruct (N.compare_spec x z); [lia|reflexivity|lia].
    + intros _. destruct (N.compare_spec x z); [lia|reflexivity|lia].
Qed.

Lemma str_compare_gt (a b : str) : str_compare a b = Gt -> str_compare b a = Lt.
Proof.
  revert b. induction a as [|x a IH]; intros [|y b]; simpl;
    try discriminate; try reflexivity.
  destruct (N.compare_spec x y) as [->|Hxy|Hxy]; try discriminate.
  - rewrite N.compare_refl. apply IH.
  - intros _. destruct (N.compare_spec y x); [lia|reflexivity|lia].
Qed.

Lemma month_compare_eq (a b : month_key) : month_compare a b = Eq <-> a = b.
Proof.
  unfold month_compare. destruct a as [ya ma], b as [yb mb]. simpl.
  destruct (Z.compare_spec ya yb) as [->|H|H].
  - rewrite Z.compare_eq_iff. split; [now intros ->|congruence].
  - split; [discriminate|]. intros E. injection E as -> _. lia.
  - split; [discriminate|]. intros E. injection E as -> _. lia.
Qed.

Lemma month_compare_trans (a b c : month_key) :
  month_compare a b = Lt -> month_compare b c = Lt -> month_compare a c = Lt.
Proof.
  unfold month_compare.
  destruct (Z.compare_spec (mk_year a) (mk_year b)) as [E1|H1|H1];
    destruct (Z.compare_spec (mk_year b) (mk_year c)) as [E2|H2|H2];
    destruct (Z.compare_spec (mk_year a) (mk_year c)) as [E3|H3|H3];
    try discriminate; try reflexivity; try lia.
  rewrite !Z.compare_lt_iff. lia.
Qed.

Lemma month_compare_gt (a b : month_key) :
  month_compare a b = Gt -> month_compare b a = Lt.
Proof.
  unfold month_compare.
  destruct (Z.compare_spec (mk_year a) (mk_year b)) as [E1|H1|H1];
    destruct (Z.compare_spec (mk_year b) (mk_year a)) as [E2|H2|H2];
    try discriminate; try reflexivity; try lia.
  rewrite Z.compare_gt_iff, Z.compare_lt_iff. lia.
Qed.

(** ** Groups partition a table *)

Section Partition.
Variables R K : Type.
Variable eqb : K -> K -> bool.
Hypothesis eqb_eq : forall a b, eqb a b = true <-> a = b.
Variable key : R -> K.
Variable g : R -> Z.

Lemma sumZ_cons (x : Z) (l : list Z) : sumZ (x :: l) = x + sumZ l.
Proof. reflexivity. Qed.

Lemma sum_one_key (x : K) (v : Z) (ks : list K) :
  NoDup ks -> In x ks ->
  sumZ (map (fun k => if eqb x k then v else 0) ks) = v.
Proof.
  induction 1 as [|k ks Hk Hnd IH]; intros Hin; [destruct Hin|].
  cbn [map]. rewrite sumZ_cons. destruct Hin as [->|Hin].
  - assert (E : eqb x x = true) by now apply eqb_eq. rewrite E.
    assert (Z0 : sumZ (map (fun k => if eqb x k then v else 0) ks) = 0).
    { clear IH Hnd. induction ks as [|k ks IH]; [reflexivity|].
      cbn [map]. rewrite sumZ_cons.
      destruct (eqb x k) eqn:Ek.
      - exfalso. apply Hk. left. symmetry. now apply eqb_eq.
      - rewrite IH; [reflexivity|]. intros H. apply Hk. now right. }
    lia.
  - destruct (eqb x k) eqn:Ek.
    + exfalso. apply eqb_eq in Ek. subst. contradiction.
    + rewrite IH by assumption. lia.
Qed.

Lemma sumZ_map_add (A : Type) (f h : A -> Z) (l : list A) :
  sumZ (map (fun a => f a + h a) l) = sumZ (map f l) + sumZ (map h l).
Proof.
  induction l as [|a l IH]; [reflexivity|].
  cbn [map]. rewrite !sumZ_cons, IH. lia.
Qed.

(** Over duplicate-free keys that cover the table, the sums of the groups
    add up to the sum of the table. *)
Lemma group_sums_add_up (ks : list K) (rows : list R) :
  NoDup ks -> (forall r, In r rows -> In (key r) ks) ->
  sumZ (map (fun k => sumZ (map g (filter (fun r => eqb (key r) k) rows))) ks)
  = sumZ (map g rows).
Proof.
  intros Hnd. induction rows as [|r rows IH]; intros Hcov.
  - cbn [filter map]. clear Hnd Hcov. induction ks as [|k ks IHk]; [reflexivity|].
    cbn [map]. rewrite sumZ_cons, IHk. reflexivity.
  - cbn [map]. rewrite sumZ_cons.
    rewrite <- IH by (intros r' Hr'; apply Hcov; now right).
    rewrite <- (@sum_one_key (key r) (g r) ks Hnd (Hcov r (or_introl eq_refl))).
    rewrite <- sumZ_map_add. f_equal. apply map_ext. intros k.
    cbn [filter]. destruct (eqb (key r) k); [reflexivity|lia].
Qed.

End Partition.

(** The groups of [groupby] add up to the table. *)
Lemma groupby_sums_add_up (R : Type) (key : R -> str) (g : R -> Z) (rows : list R) :
  sumZ (map (fun kg : str * list R => sumZ (map g (snd kg))) (groupby key rows))
  = sumZ (map g rows).
Proof.
  unfold groupby. rewrite map_map. cbn [snd].
  apply (@group_sums_add_up _ _ str_eqb str_eqb_eq key g).
  - apply (@sorted_unique_NoDup _ _ str_compare_eq str_compare_trans str_compare_gt).
  - intros r Hr. apply (@sorted_unique_in _ _ str_compare_eq). now apply in_map.
Qed.

(** X1.  The team quotas add up to the global quota, and so do the centre
    quotas: every row of the quota table of the month is summed in exactly
    one team and in exactly one centre. *)
Theorem metas_rollups_add_up (view : list metas_row) :
  sumZ (map (fun kg => mg_meta (snd kg)) (df_team view)) = mg_meta (df_global view)
  /\ sumZ (map (fun kg => mg_meta (snd kg)) (df_centro view))
     = mg_meta (df_global view).
Proof.
  unfold df_team, df_centro, df_global. rewrite !map_map. cbn [snd mg_meta].
  split.
  - apply (groupby_sums_add_up _ m_Supervisor meta_mes_actual view).
  - apply (groupby_sums_add_up _ m_CentroKey meta_mes_actual view).
Qed.

(** X2.  In the sanity check the team rows add up to the global row, column
    by column (sales made, in transit, total, quota, gap), and so do the
    centre rows. *)
Theorem sanity_rollups_add_up {U : UnicodeData} (S : session) (T : sanity_tables) :
  sanity S = Some T ->
  forall tbl, tbl = df_sanity_team T \/ tbl = df_sanity_centro T ->
    sumZ (map (fun kg => ventas_hechas (snd kg)) tbl)
    = ventas_hechas (df_sanity_global T)
    /\ sumZ (map (fun kg => ventas_en_transito (snd kg)) tbl)
       = ventas_en_transito (df_sanity_global T)
    /\ sumZ (map (fun kg => total_ventas_hechas (snd kg)) tbl)
       = total_ventas_hechas (df_sanity_global T)
    /\ sumZ (map (fun kg => meta_group (snd kg)) tbl)
       = meta_group (df_sanity_global T)
    /\ sumZ (map (fun kg => gap_group (snd kg)) tbl)
       = gap_group (df_sanity_global T).
Proof.
  intros H tbl Htbl.
  destruct (@sanity_tables_shape _ S T H) as (merged & _ & _ & Ht & Hc & Hg).
  rewrite Hg.
  cbn [ventas_hechas ventas_en_transito total_ventas_hechas meta_group gap_group
       sanity_agg].
  destruct Htbl as [-> | ->]; [rewrite Ht|rewrite Hc];
    rewrite !map_map; cbn [snd sanity_agg ventas_hechas ventas_en_transito
                               total_ventas_hechas meta_group gap_group];
    repeat split;
    first [ apply (groupby_sums_add_up _ s_Supervisor)
          | apply (groupby_sums_add_up _ s_CentroKey) ].
Qed.

Lemma sanity_rollups_add_up_witness :
  exists T,
    @sanity Latin1 demo = Some T
    /\ map (fun kg => gap_group (snd kg)) (df_sanity_team T) = [5; 5]
    /\ sumZ (map (fun kg => gap_group (snd kg)) (df_sanity_team T))
       = gap_group (df_sanity_global T).
Proof.
  eexists. split; [vm_compute; reflexivity|]. split; [reflexivity|].
  match goal with
  | |- sumZ (map _ (df_sanity_team ?T)) = _ =>
      assert (H : @sanity Latin1 demo = Some T) by (vm_compute; reflexivity);
      exact (proj2 (proj2 (proj2 (proj2
               (@sanity_rollups_add_up Latin1 demo T H _ (or_introl eq_refl))))))
  end.
Defined.

(** ** The split per seller as a table *)

Lemma length_as_sum (A : Type) (l : list A) :
  Z.of_nat (List.length l) = sumZ (map (fun _ => 1) l).
Proof.
  induction l as [|a l IH]; [reflexivity|].
  cbn [map List.length]. rewrite sumZ_cons, <- IH. lia.
Qed.

(** X3.  The split per seller has exactly one row for every seller, the
    sellers being the trimmed VENDEDOR texts of the records that are no
    cancellation errors; the rows come in the strictly increasing order of
    the seller texts (code point by code point), and each carries the
    normalised name of its seller. *)
Theorem split_rows_sorted {U : UnicodeData} (df : list programada) :
  let sellers := map g_VENDEDOR (load_programadas_split_by_exec df) in
  increasing str_compare sellers
  /\ NoDup sellers
  /\ (forall v,
        In v sellers
        <-> exists r, In r df /\ est_norm r <> lit "CANC ERROR"
                      /\ strip (astype_str (VENDEDOR r)) = v)
  /\ Forall (fun g => VEN_NORM g = normalize_name (Some (g_VENDEDOR g)))
            (load_programadas_split_by_exec df).
Proof.
  cbv zeta.
  assert (E : map g_VENDEDOR (load_programadas_split_by_exec df)
              = sorted_unique str_compare
                  (map vendedor (filter (fun r => negb (is_canc r)) df))).
  { rewrite load_programadas_filtered. unfold groupby. rewrite !map_map.
    cbn [split_row_of g_VENDEDOR]. apply map_id. }
  rewrite E. split; [|split; [|split]].
  - apply (@sorted_unique_increasing _ _ str_compare_gt).
  - apply (@sorted_unique_NoDup _ _ str_compare_eq str_compare_trans str_compare_gt).
  - intros v. rewrite (@sorted_unique_in _ _ str_compare_eq), in_map_iff. split.
    + intros (r & Hv & Hr). apply filter_In in Hr. destruct Hr as [Hr Hc].
      exists r. split; [exact Hr|]. split; [|exact Hv].
      apply negb_true_iff in Hc. now apply (@is_canc_false _ r).
    + intros (r & Hr & Hc & Hv). exists r. split; [exact Hv|].
      apply filter_In. split; [exact Hr|].
      apply negb_true_iff. now apply (@is_canc_false _ r).
  - rewrite load_programadas_filtered. apply Forall_forall. intros g Hg.
    apply in_map_iff in Hg. destruct Hg as ([k grp] & <- & _). reflexivity.
Qed.

(** Ana (written with and without blanks around) has one row; Zoe, who has
    a cancellation error only, has none. *)
Lemma split_rows_sorted_witness :
  let df :=
    [mkprogramada (PyStr (lit " ana ")) (PyStr (lit "En entrega")) (PyStr (lit "1"));
     mkprogramada (PyStr (lit "ana")) (PyStr (lit "Entregado")) (PyStr (lit "3"));
     mkprogramada (PyStr (lit "Zoe")) (PyStr (lit "canc  error")) PyNone;
     mkprogramada (PyStr (lit "Eva")) (PyStr (lit "Solicitado")) PyNone] in
  map g_VENDEDOR (@load_programadas_split_by_exec Latin1 df) = [lit "Eva"; lit "ana"]
  /\ In (lit "ana") (map g_VENDEDOR (@load_programadas_split_by_exec Latin1 df))
  /\ ~ In (lit "Zoe") (map g_VENDEDOR (@load_programadas_split_by_exec Latin1 df)).
Proof.
  cbv zeta. split; [vm_compute; reflexivity|]. split.
  - apply (proj1 (proj2 (proj2 (@split_rows_sorted Latin1 _)))).
    eexists. split; [left; reflexivity|].
    split; [vm_compute; discriminate|vm_compute; reflexivity].
  - intros H. apply (proj1 (proj2 (proj2 (@split_rows_sorted Latin1 _)))) in H.
    destruct H as (r & Hr & Hc & Hv). cbn [In] in Hr.
    destruct Hr as [<-|[<-|[<-|[<-|[]]]]];
      first [ (vm_compute in Hv; discriminate) | (apply Hc; vm_compute; reflexivity) ].
Defined.

(** X4.  The split loses and repeats nothing: over all sellers, [total_mes]
    adds up to the number of records that are not cancellation errors,
    [transito_mes] to those of them in transit and [hechas_mes] to the
    others. *)
Theorem split_counts_every_record {U : UnicodeData} (df : list programada) :
  let kept_all := filter (fun r => negb (is_canc r)) df in
  sumZ (map total_mes (load_programadas_split_by_exec df))
  = Z.of_nat (List.length kept_all)
  /\ sumZ (map transito_mes (load_programadas_split_by_exec df))
     = count is_transito kept_all
  /\ sumZ (map hechas_mes (load_programadas_split_by_exec df))
     = count (fun r => negb (is_transito r)) kept_all.
Proof.
  cbv zeta. rewrite load_programadas_filtered.
  set (kept_all := filter (fun r => negb (is_canc r)) df).
  rewrite !map_map.
  assert (Ht : sumZ (map (fun kg => transito_mes (split_row_of kg))
                         (groupby vendedor kept_all))
               = count is_transito kept_all).
  { rewrite <- sum_indicator.
    rewrite <- (groupby_sums_add_up _ vendedor
                  (fun r => int_of_bool (is_transito r)) kept_all).
    apply f_equal, map_ext. intros [k grp]. reflexivity. }
  assert (Hh : sumZ (map (fun kg => hechas_mes (split_row_of kg))
                         (groupby vendedor kept_all))
               = count (fun r => negb (is_transito r)) kept_all).
  { rewrite <- (sum_indicator (fun r => negb (is_transito r))).
    rewrite <- (groupby_sums_add_up _ vendedor
                  (fun r => int_of_bool (negb (is_transito r))) kept_all).
    apply f_equal, map_ext. intros [k grp]. reflexivity. }
  split; [|split; assumption].
  rewrite <- (count_split is_transito kept_all), <- Ht, <- Hh.
  rewrite <- sumZ_map_add. apply f_equal, map_ext. intros [k grp]. reflexivity.
Qed.

(** ** In transit by FOLIO *)

Lemma max_flag_fold (A : Type) (p : A -> bool) (l : list A) (b : bool) :
  fold_left Z.max (map (fun r => int_of_bool (p r)) l) (int_of_bool b)
  = int_of_bool (b || existsb p l).
Proof.
  revert b. induction l as [|r l IH]; intros b; cbn [map fold_left existsb].
  - now rewrite orb_false_r.
  - replace (Z.max (int_of_bool b) (int_of_bool (p r)))
      with (int_of_bool (b || p r)) by (destruct b, (p r); reflexivity).
    rewrite IH, orb_assoc. reflexivity.
Qed.

Lemma max_flag_exists (A : Type) (p : A -> bool) (l : list A) :
  negb (max_flag (map (fun r => int_of_bool (p r)) l) =? 0) = existsb p l.
Proof.
  destruct l as [|r l]; [reflexivity|].
  cbn [map max_flag existsb]. rewrite max_flag_fold.
  destruct (p r || existsb p l); reflexivity.
Qed.

(** A delivery record in transit: the normalised status is one of the
    four, or it is ENTREGADO with a blank sale. *)
Definition entrega_rule {U : UnicodeData} (r : entrega) : Prop :=
  let est := normalize_name (Some (strip (astype_str (t_ESTATUS r)))) in
  In est TRANSITO_SET \/ (est = lit "ENTREGADO" /\ venta_blank (t_VENTA r)).

Lemma entrega_en_transito_rule {U : UnicodeData} (r : entrega) :
  entrega_en_transito r = true <-> entrega_rule r.
Proof.
  unfold entrega_en_transito, entrega_rule. cbv zeta.
  rewrite orb_true_iff, andb_true_iff, (@isin_In _ TRANSITO_SET), str_eqb_eq,
    (@_venta_vacia_blank _ (t_VENTA r)).
  reflexivity.
Qed.

(** X5.  [load_transito_flags] returns exactly one row for every FOLIO key
    that is not empty, the keys being the normalised FOLIO of the records
    and coming in strictly increasing order; the flag of a key is on if and
    only if at least one record with that key is in transit (so a duplicate
    cannot turn a true flag off).  Records whose FOLIO normalises to the
    empty text (null, blank, "nan", "none") are dropped: the empty key never
    appears. *)
Theorem transito_flags_any {U : UnicodeData} (df : list entrega) :
  let out := load_transito_flags df in
  increasing str_compare (map fst out)
  /\ NoDup (map fst out)
  /\ (forall k b,
        In (k, b) out
        <-> k <> []
            /\ (exists r, In r df /\ folio_key (t_FOLIO r) = k)
            /\ (b = true
                <-> exists r, In r df /\ folio_key (t_FOLIO r) = k
                              /\ entrega_rule r)).
Proof.
  cbv zeta.
  set (fk := fun r : entrega => folio_key (t_FOLIO r)).
  set (rows := filter (fun r => negb (str_eqb (fk r) [])) df).
  set (flag := fun k : str =>
                 existsb entrega_en_transito (filter (fun r => str_eqb (fk r) k) rows)).
  assert (E : load_transito_flags df
              = map (fun k => (k, flag k)) (sorted_unique str_compare (map fk rows))).
  { assert (E0 : load_transito_flags df
                 = map (fun kg : str * list entrega =>
                          (fst kg, negb (max_flag
                                           (map (fun r => int_of_bool (entrega_en_transito r))
                                                (snd kg)) =? 0)))
                       (groupby fk rows))
      by (destruct df; reflexivity).
    rewrite E0. unfold groupby. rewrite map_map. apply map_ext. intros k.
    cbn [fst snd]. unfold flag. now rewrite max_flag_exists. }
  assert (Ek : map fst (load_transito_flags df)
               = sorted_unique str_compare (map fk rows)).
  { rewrite E, map_map. cbn [fst]. apply map_id. }
  assert (Hrows : forall r, In r rows <-> In r df /\ fk r <> []).
  { intros r. unfold rows. rewrite filter_In, negb_true_iff, str_eqb_neq. tauto. }
  assert (Hflag : forall k, k <> [] ->
            (flag k = true <-> exists r, In r df /\ fk r = k /\ entrega_rule r)).
  { intros k Hk. unfold flag. rewrite existsb_exists. split.
    - intros (r & Hr & Ht). apply filter_In in Hr. destruct Hr as [Hr Hkey].
      apply str_eqb_eq in Hkey. apply Hrows in Hr. destruct Hr as [Hr _].
      exists r. split; [exact Hr|]. split; [exact Hkey|].
      now apply entrega_en_transito_rule.
    - intros (r & Hr & Hkey & Ht). exists r. split.
      + apply filter_In. split; [|now apply str_eqb_eq].
        apply Hrows. split; [exact Hr|]. now rewrite Hkey.
      + now apply entrega_en_transito_rule. }
  rewrite Ek. split; [|split].
  - apply (@sorted_unique_increasing _ _ str_compare_gt).
  - apply (@sorted_unique_NoDup _ _ str_compare_eq str_compare_trans str_compare_gt).
  - intros k b. rewrite E, in_map_iff. split.
    + intros (k' & Ekb & Hin). injection Ekb as -> <-.
      apply (proj1 (@sorted_unique_in _ _ str_compare_eq _ _)) in Hin.
      apply in_map_iff in Hin. destruct Hin as (r & Hkey & Hr).
      apply Hrows in Hr. destruct Hr as [Hr Hne].
      assert (Hk : k <> []) by (now rewrite <- Hkey).
      split; [exact Hk|]. split; [now exists r|]. now apply Hflag.
    + intros (Hk & (r & Hr & Hkey) & Hb). exists k. split.
      * f_equal. destruct b, (flag k) eqn:Ef; try reflexivity; exfalso.
        -- assert (H : flag k = true) by (apply (Hflag k Hk), Hb; reflexivity).
           congruence.
        -- assert (H : false = true) by (apply Hb, (Hflag k Hk); exact Ef).
           discriminate.
      * apply (proj2 (@sorted_unique_in _ _ str_compare_eq _ _)).
        apply in_map_iff. exists r. split; [exact Hkey|].
        apply Hrows. split; [exact Hr|]. unfold fk. now rewrite Hkey.
Qed.

(** Folio 4412 has a delivered record and one in preparation: its flag is
    on, and no row says otherwise. *)
Lemma transito_flags_any_witness :
  let df :=
    [ mkentrega (PyStr (lit "4412.0")) (PyStr (lit "Entregado")) (PyStr (lit "9"));
      mkentrega (PyStr (lit " 4412")) (PyStr (lit "En preparacion")) (PyStr (lit "9"));
      mkentrega PyNaN (PyStr (lit "Solicitado")) PyNone ] in
  In (lit "4412", true) (@load_transito_flags Latin1 df)
  /\ ~ In (lit "4412", false) (@load_transito_flags Latin1 df)
  /\ ~ In ([], true) (@load_transito_flags Latin1 df).
Proof.
  cbv zeta.
  set (df := [ mkentrega (PyStr (lit "4412.0")) (PyStr (lit "Entregado")) (PyStr (lit "9"));
               mkentrega (PyStr (lit " 4412")) (PyStr (lit "En preparacion"))
                         (PyStr (lit "9"));
               mkentrega PyNaN (PyStr (lit "Solicitado")) PyNone ]).
  assert (Hany : exists r, In r df /\ @folio_key Latin1 (t_FOLIO r) = lit "4412"
                           /\ @entrega_rule Latin1 r).
  { eexists. split; [right; left; reflexivity|].
    split; [vm_compute; reflexivity|].
    left. vm_compute. tauto. }
  split; [|split].
  - apply (proj2 (proj2 (@transito_flags_any Latin1 df)) (lit "4412") true).
    split; [discriminate|]. split.
    + destruct Hany as (r & Hr & Hk & _). now exists r.
    + split; [intros _; exact Hany|reflexivity].
  - intros H.
    apply (proj2 (proj2 (@transito_flags_any Latin1 df)) (lit "4412") false) in H.
    destruct H as (_ & _ & Hb). apply Hb in Hany. discriminate.
  - intros H.
    apply (proj2 (proj2 (@transito_flags_any Latin1 df)) [] true) in H.
    destruct H as (Hk & _). now apply Hk.
Defined.

(** Folio 4412 arrives as "4412.0" and as " 4412": one key, in transit
    through its second record; the record without FOLIO is dropped. *)
Example transito_flags_demo :
  @load_transito_flags Latin1
    [ mkentrega (PyStr (lit "4412.0")) (PyStr (lit "Entregado")) (PyStr (lit "9"));
      mkentrega (PyStr (lit " 4412")) (PyStr (lit "En preparaci" ++ [243%N] ++ lit "n"))
                (PyStr (lit "9"));
      mkentrega PyNaN (PyStr (lit "Solicitado")) PyNone;
      mkentrega (PyStr (lit "77")) (PyStr (lit "Entregado")) (PyStr (lit "1")) ]
  = [(lit "4412", true); (lit "77", false)].
Proof. vm_compute. reflexivity. Qed.

(** ** A range is the sum of its days *)

Definition sumQ (l : list Q) : Q := fold_right Qplus 0%Q l.

Lemma date_eqb_eq (a b : date) : date_eqb a b = true <-> a = b.
Proof.
  destruct a as [ya ma da], b as [yb mb db]. unfold date_eqb. cbn [year month day].
  rewrite !andb_true_iff, !Z.eqb_eq. split.
  - intros [[-> ->] ->]. reflexivity.
  - intros E. injection E as -> -> ->. auto.
Qed.

Lemma date_in_In (d : date) (s : list date) : date_in d s = true <-> In d s.
Proof.
  unfold date_in. rewrite existsb_exists. split.
  - intros (x & Hx & E). apply date_eqb_eq in E. now subst.
  - intros H. exists d. split; [assumption|now apply date_eqb_eq].
Qed.

(** The holidays computed for a year are dates of that year. *)
Lemma mexico_puentes_year (y : Z) (x : date) : In x (mexico_puentes y) -> year x = y.
Proof.
  unfold mexico_puentes, _nth_weekday_of_month, replace_day. cbn [In].
  intros H. repeat (destruct H as [<-|H]; [reflexivity|]). destruct H.
Qed.

(** What the loop keeps in [puentes] while it walks from [start_d]: holidays
    of their own years, those of the first year among them. *)
Definition puentes_ok (start_d : date) (p : list date) : Prop :=
  (forall x, In x p -> In x (mexico_puentes (year x)))
  /\ (forall x, In x (mexico_puentes (year start_d)) -> In x p).

Lemma workable_step_day (start_d dts : date) (p : list date) (total : Q) :
  puentes_ok start_d p ->
  puentes_ok start_d (fst (workable_step start_d (p, total) dts))
  /\ (snd (workable_step start_d (p, total) dts)
      == total + workable_equiv_between dts dts)%Q.
Proof.
  intros [Hown Hfirst]. unfold workable_step.
  set (p' := if negb (year dts =? year start_d)
             then p ++ mexico_puentes (year dts) else p).
  assert (Hp' : puentes_ok start_d p').
  { unfold p'. destruct (negb (year dts =? year start_d)); [|now split].
    split.
    - intros x Hx. apply in_app_or in Hx. destruct Hx as [Hx|Hx]; [now apply Hown|].
      now rewrite (mexico_puentes_year _ _ Hx).
    - intros x Hx. apply in_or_app. left. now apply Hfirst. }
  assert (Hin : date_in dts p' = date_in dts (mexico_puentes (year dts))).
  { apply eq_true_iff_eq. rewrite !date_in_In. split.
    - apply (proj1 Hp').
    - intros Hx. unfold p'. destruct (year dts =? year start_d) eqn:Ey; cbn [negb].
      + apply Hfirst. apply Z.eqb_eq in Ey. now rewrite <- Ey.
      + apply in_or_app. now right. }
  rewrite workable_equiv_between_day, Hin.
  destruct (date_in dts (mexico_puentes (year dts))).
  - cbn [fst snd]. split; [exact Hp'|]. now rewrite Qplus_0_r.
  - destruct (weekday dts <=? 4); [cbn [fst snd]; split; [exact Hp'|ring]|].
    destruct (weekday dts =? 5); cbn [fst snd]; (split; [exact Hp'|ring]).
Qed.

Lemma workable_fold_sum (start_d : date) (days : list date) (p : list date) (total : Q) :
  puentes_ok start_d p ->
  (snd (fold_left (workable_step start_d) days (p, total))
   == total + sumQ (map (fun d => workable_equiv_between d d) days))%Q.
Proof.
  revert p total. induction days as [|d days IH]; intros p total Hp.
  - cbn [fold_left map sumQ fold_right snd]. ring.
  - cbn [fold_left map]. destruct (workable_step_day start_d d p total Hp) as [Hp' Hv].
    destruct (workable_step start_d (p, total) d) as [p' total'] eqn:Es.
    cbn [fst snd] in Hp', Hv. rewrite (IH p' total' Hp'), Hv.
    unfold sumQ. cbn [fold_right]. ring.
Qed.

(** X6.  The business-day-equivalent of a range is the sum of the values of
    its days taken one by one (and 0 when the end is before the start): the
    holidays of a year are applied to the days of that year only, also in a
    range that runs over the turn of a year. *)
Theorem workable_equiv_is_sum_of_days (start_d end_d : date) :
  (workable_equiv_between start_d end_d
   == if date_ltb end_d start_d then 0
      else sumQ (map (fun d => workable_equiv_between d d)
                     (date_range start_d end_d)))%Q.
Proof.
  unfold workable_equiv_between at 1. destruct (date_ltb end_d start_d); [reflexivity|].
  rewrite workable_fold_sum.
  - ring.
  - split; [|auto]. intros x Hx. now rewrite (mexico_puentes_year _ _ Hx).
Qed.

(** From Tuesday 30 December 2025 to Friday 2 January 2026: three working
    days, the first of January counting for nothing. *)
Example workable_equiv_year_turn :
  (workable_equiv_between (mkdate 2025 12 30) (mkdate 2026 1 2) == 3)%Q
  /\ (workable_equiv_between (mkdate 2026 1 1) (mkdate 2026 1 1) == 0)%Q.
Proof. split; vm_compute; reflexivity. Qed.

(** ** Ordinals and the order of dates *)

(** [a < b] on dates, as a proposition. *)
Definition date_lt (a b : date) : Prop :=
  year a < year b
  \/ (year a = year b
      /\ (month a < month b \/ (month a = month b /\ day a < day b))).

Lemma date_ltb_spec (a b : date) : date_ltb a b = true <-> date_lt a b.
Proof.
  unfold date_ltb, date_lt.
  rewrite !orb_true_iff, !andb_true_iff, !orb_true_iff, !andb_true_iff,
          !Z.ltb_lt, !Z.eqb_eq.
  tauto.
Qed.

Lemma date_ltb_false (a b : date) :
  date_ltb a b = false <-> a = b \/ date_lt b a.
Proof.
  rewrite <- not_true_iff_false, date_ltb_spec. unfold date_lt.
  destruct a as [ya ma da], b as [yb mb db]. cbn [year month day]. split.
  - intros H.
    destruct (Z.eq_dec ya yb) as [->|Hy]; [|right; lia].
    destruct (Z.eq_dec ma mb) as [->|Hm]; [|right; lia].
    destruct (Z.eq_dec da db) as [->|Hd]; [now left|right; lia].
  - intros [E|H]; [injection E as -> -> ->|]; lia.
Qed.

Lemma days_before_year_next (y : Z) :
  days_before_year (y + 1)
  = days_before_year y + 365 + (if is_leap y then 1 else 0).
Proof.
  unfold days_before_year, is_leap. replace (y + 1 - 1) with y by lia.
  destruct (Z.eqb_spec (y mod 4) 0) as [H4|H4];
    destruct (Z.eqb_spec (y mod 100) 0) as [H100|H100];
    destruct (Z.eqb_spec (y mod 400) 0) as [H400|H400];
    cbn [negb andb orb]; Z.div_mod_to_equations; lia.
Qed.

Lemma days_before_year_mono (y y' : Z) :
  y <= y' -> days_before_year y <= days_before_year y'.
Proof. unfold days_before_year. intros H. Z.div_mod_to_equations. lia. Qed.

Lemma month_cases (m : Z) :
  1 <= m <= 12 ->
  m = 1 \/ m = 2 \/ m = 3 \/ m = 4 \/ m = 5 \/ m = 6 \/ m = 7 \/ m = 8
  \/ m = 9 \/ m = 10 \/ m = 11 \/ m = 12.
Proof. lia. Qed.

Ltac each_month H :=
  destruct (month_cases _ H) as
    [->|[->|[->|[->|[->|[->|[->|[->|[->|[->|[->| ->]]]]]]]]]]].

Lemma days_before_month_next (y m : Z) :
  1 <= m <= 11 ->
  days_before_month y (m + 1) = days_before_month y m + days_in_month y m.
Proof.
  intros H. assert (H' : 1 <= m <= 12) by lia.
  unfold days_before_month, days_in_month.
  each_month H'; try lia; destruct (is_leap y); reflexivity.
Qed.

Lemma days_before_month_bounds (y m : Z) :
  1 <= m <= 12 ->
  0 <= days_before_month y m
  /\ days_before_month y m + days_in_month y m
     <= 365 + (if is_leap y then 1 else 0).
Proof.
  intros H. unfold days_before_month, days_in_month.
  each_month H; destruct (is_leap y); split; vm_compute; discriminate.
Qed.

Lemma days_before_month_mono (y m m' : Z) :
  1 <= m -> m < m' -> m' <= 12 ->
  days_before_month y m + days_in_month y m <= days_before_month y m'.
Proof.
  intros H1 H2 H3.
  assert (Hm : 1 <= m <= 12) by lia. assert (Hm' : 1 <= m' <= 12) by lia.
  unfold days_before_month, days_in_month.
  each_month Hm; each_month Hm'; try lia; destruct (is_leap y);
    vm_compute; discriminate.
Qed.

(** On the values of [date], the ordinal grows with the date. *)
Lemma toordinal_lt (a b : date) :
  valid_date a -> valid_date b -> date_lt a b -> toordinal a < toordinal b.
Proof.
  intros (Hya & Hma & Hda) (Hyb & Hmb & Hdb) H. unfold toordinal.
  pose proof (days_before_month_bounds (year a) (month a) Hma) as [Ha0 Ha1].
  pose proof (days_before_month_bounds (year b) (month b) Hmb) as [Hb0 Hb1].
  destruct H as [Hy|[Hy [Hm|[Hm Hd]]]].
  - pose proof (days_before_year_next (year a)) as Hn.
    pose proof (days_before_year_mono (year a + 1) (year b) ltac:(lia)) as Hmono.
    lia.
  - rewrite Hy in *.
    pose proof (days_before_month_mono (year b) (month a) (month b)
                  ltac:(lia) Hm ltac:(lia)).
    lia.
  - rewrite Hy, Hm. lia.
Qed.

Lemma toordinal_ltb (a b : date) :
  valid_date a -> valid_date b ->
  (date_ltb a b = true <-> toordinal a < toordinal b).
Proof.
  intros Ha Hb. split.
  - intros H. apply toordinal_lt; try assumption. now apply date_ltb_spec.
  - intros H. destruct (date_ltb a b) eqn:E; [reflexivity|].
    apply date_ltb_false in E. destruct E as [->|E]; [lia|].
    pose proof (toordinal_lt b a Hb Ha E). lia.
Qed.

Lemma toordinal_next_day (d : date) :
  valid_date d -> toordinal (next_day d) = toordinal d + 1.
Proof.
  intros (Hy & Hm & Hd). unfold next_day, toordinal.
  destruct (Z.ltb_spec (day d) (days_in_month (year d) (month d))) as [H|H];
    cbn [year month day]; [lia|].
  destruct (Z.ltb_spec (month d) 12) as [H12|H12]; cbn [year month day].
  - rewrite days_before_month_next by lia. lia.
  - assert (E : month d = 12) by lia. rewrite E in *.
    rewrite days_before_year_next.
    assert (E31 : days_in_month (year d) 12 = 31) by reflexivity.
    assert (E0 : days_before_month (year d + 1) 1 = 0) by reflexivity.
    assert (E12 : days_before_month (year d) 12
                  = 334 + (if is_leap (year d) then 1 else 0)) by reflexivity.
    rewrite E0, E12. destruct (is_leap (year d)); lia.
Qed.

(** ** A longer range never counts less *)

Lemma days_from_app (d : date) (n k : nat) :
  days_from d (n + k) = days_from d n ++ days_from (Nat.iter n next_day d) k.
Proof.
  revert d. induction n as [|n IH]; intros d; [reflexivity|].
  change (S n + k)%nat with (S (n + k)).
  cbn [days_from app]. rewrite IH, Nat.iter_succ_r. reflexivity.
Qed.

Lemma workable_fold_ge (start_d : date) (days : list date) (st : list date * Q) :
  (snd st <= snd (fold_left (workable_step start_d) days st))%Q.
Proof.
  revert st. induction days as [|d days IH]; intros st; [apply Qle_refl|].
  cbn [fold_left]. eapply Qle_trans; [|apply IH].
  destruct st as [p total]. unfold workable_step. cbn [snd].
  destruct (date_in d _); [apply Qle_refl|].
  destruct (weekday d <=? 4).
  - cbn [snd]. rewrite <- (Qplus_0_r total) at 1. apply Qplus_le_r. discriminate.
  - destruct (weekday d =? 5); [|apply Qle_refl].
    cbn [snd]. rewrite <- (Qplus_0_r total) at 1. apply Qplus_le_r. discriminate.
Qed.

(** X7.  With the start fixed, a later end never lowers the
    business-day-equivalent. *)
Theorem workable_equiv_monotone (start_d end_d end_d' : date) :
  valid_date start_d -> valid_date end_d -> valid_date end_d' ->
  date_leb end_d end_d' = true ->
  (workable_equiv_between start_d end_d
   <= workable_equiv_between start_d end_d')%Q.
Proof.
  intros Hs He He' Hle.
  assert (Hord : toordinal end_d <= toordinal end_d').
  { unfold date_leb in Hle. apply negb_true_iff in Hle.
    destruct (Z_lt_le_dec (toordinal end_d') (toordinal end_d)) as [H|H]; [|exact H].
    apply (toordinal_ltb end_d' end_d He' He) in H. congruence. }
  unfold workable_equiv_between at 1.
  destruct (date_ltb end_d start_d) eqn:E1;
    [apply workable_equiv_between_nonneg|].
  assert (Hse : toordinal start_d <= toordinal end_d).
  { destruct (Z_lt_le_dec (toordinal end_d) (toordinal start_d)) as [H|H]; [|exact H].
    apply (toordinal_ltb end_d start_d He Hs) in H. congruence. }
  unfold workable_equiv_between.
  assert (E2 : date_ltb end_d' start_d = false).
  { destruct (date_ltb end_d' start_d) eqn:E; [|reflexivity].
    apply (toordinal_ltb end_d' start_d He' Hs) in E. lia. }
  rewrite E2. unfold date_range.
  replace (Z.to_nat (toordinal end_d' - toordinal start_d + 1))
    with (Z.to_nat (toordinal end_d - toordinal start_d + 1)
          + Z.to_nat (toordinal end_d' - toordinal end_d))%nat by lia.
  rewrite days_from_app, fold_left_app. apply workable_fold_ge.
Qed.

(** Through May 2025: up to Friday the 2nd, up to Saturday the 3rd, up to
    Sunday the 4th. *)
Lemma workable_equiv_monotone_witness :
  valid_date (mkdate 2025 5 1) /\ valid_date (mkdate 2025 5 3)
  /\ valid_date (mkdate 2025 5 4)
  /\ (workable_equiv_between (mkdate 2025 5 1) (mkdate 2025 5 3) == 3 # 2)%Q
  /\ (workable_equiv_between (mkdate 2025 5 1) (mkdate 2025 5 3)
      <= workable_equiv_between (mkdate 2025 5 1) (mkdate 2025 5 4))%Q.
Proof.
  assert (V1 : valid_date (mkdate 2025 5 1)) by (vm_compute; intuition discriminate).
  assert (V3 : valid_date (mkdate 2025 5 3)) by (vm_compute; intuition discriminate).
  assert (V4 : valid_date (mkdate 2025 5 4)) by (vm_compute; intuition discriminate).
  split; [exact V1|]. split; [exact V3|]. split; [exact V4|].
  split; [vm_compute; reflexivity|].
  exact (workable_equiv_monotone _ _ _ V1 V3 V4 eq_refl).
Defined.

(** ** Walking a range day by day *)

Lemma days_in_month_bounds (y m : Z) : 28 <= days_in_month y m <= 31.
Proof.
  unfold days_in_month. destruct (m =? 2); [destruct (is_leap y); lia|].
  destruct ((m =? 4) || (m =? 6) || (m =? 9) || (m =? 11)); lia.
Qed.

(** The day after a date that is not the last one is a date. *)
Lemma next_day_valid (d b : date) :
  valid_date d -> valid_date b -> date_lt d b -> valid_date (next_day d).
Proof.
  intros (Hy & Hm & Hd) (Hy' & Hm' & Hd') Hlt. unfold next_day, valid_date.
  destruct (Z.ltb_spec (day d) (days_in_month (year d) (month d))) as [L|L].
  - cbn [year month day]. lia.
  - destruct (Z.ltb_spec (month d) 12) as [M|M]; cbn [year month day].
    + pose proof (days_in_month_bounds (year d) (month d + 1)). lia.
    + assert (E : month d = 12) by lia.
      change (days_in_month (year d + 1) 1) with 31.
      destruct Hlt as [Hlt|[Ey [Hlt|[Em Hlt]]]]; [lia|lia|].
      rewrite <- Ey, <- Em in Hd'. lia.
Qed.

Lemma toordinal_inj (a b : date) :
  valid_date a -> valid_date b -> toordinal a = toordinal b -> a = b.
Proof.
  intros Ha Hb E. destruct (date_ltb a b) eqn:L.
  - apply (toordinal_ltb a b Ha Hb) in L. lia.
  - apply date_ltb_false in L. destruct L as [L|L]; [exact L|].
    apply (toordinal_lt b a Hb Ha) in L. lia.
Qed.

Lemma iter_next_day (n : nat) (s e : date) :
  valid_date s -> valid_date e ->
  toordinal e = toordinal s + Z.of_nat n -> Nat.iter n next_day s = e.
Proof.
  revert s. induction n as [|n IH]; intros s Hs He E.
  - cbn [Nat.iter nat_rect]. apply toordinal_inj; [assumption|assumption|lia].
  - rewrite Nat.iter_succ_r.
    assert (Hlt : date_lt s e).
    { apply date_ltb_spec. apply (toordinal_ltb s e Hs He). lia. }
    apply IH.
    + exact (next_day_valid s e Hs He Hlt).
    + exact He.
    + rewrite (toordinal_next_day s Hs). lia.
Qed.

Lemma date_range_split (s t e : date) :
  valid_date s -> valid_date t -> valid_date e ->
  toordinal s <= toordinal t -> toordinal t < toordinal e ->
  date_range s e = date_range s t ++ date_range (next_day t) e.
Proof.
  intros Hs Ht He Hst Hte. unfold date_range.
  rewrite (toordinal_next_day t Ht).
  replace (Z.to_nat (toordinal e - toordinal s + 1))
    with (S (Z.to_nat (toordinal t - toordinal s))
          + Z.to_nat (toordinal e - (toordinal t + 1) + 1))%nat by lia.
  replace (Z.to_nat (toordinal t - toordinal s + 1))
    with (S (Z.to_nat (toordinal t - toordinal s))) by lia.
  rewrite days_from_app. f_equal. f_equal.
  rewrite Nat.iter_succ. f_equal.
  apply iter_next_day; [assumption|assumption|lia].
Qed.

Lemma sumQ_app (a b : list Q) : (sumQ (a ++ b) == sumQ a + sumQ b)%Q.
Proof.
  induction a as [|x a IH]; cbn [app].
  - unfold sumQ at 2. cbn [fold_right]. ring.
  - unfold sumQ in *. cbn [fold_right]. rewrite IH. ring.
Qed.

(** The value of one day. *)
Definition day_value (d : date) : Q := workable_equiv_between d d.

Lemma day_value_nonneg (d : date) : (0 <= day_value d)%Q.
Proof. apply workable_equiv_between_nonneg. Qed.

Lemma workable_equiv_range_sum (s e : date) :
  date_ltb e s = false ->
  (workable_equiv_between s e == sumQ (map day_value (date_range s e)))%Q.
Proof.
  intros L. unfold workable_equiv_between. rewrite L.
  rewrite workable_fold_sum.
  - unfold day_value. ring.
  - split; [|auto]. intros x Hx. now rewrite (mexico_puentes_year _ _ Hx).
Qed.

Lemma not_ltb_of_ord (a b : date) :
  valid_date a -> valid_date b ->
  toordinal b <= toordinal a -> date_ltb a b = false.
Proof.
  intros Ha Hb H. destruct (date_ltb a b) eqn:L; [|reflexivity].
  apply (toordinal_ltb a b Ha Hb) in L. lia.
Qed.

Lemma ord_of_not_ltb (a b : date) :
  valid_date a -> valid_date b ->
  date_ltb a b = false -> toordinal b <= toordinal a.
Proof.
  intros Ha Hb L.
  destruct (Z_lt_le_dec (toordinal a) (toordinal b)) as [H|H]; [|exact H].
  apply (toordinal_ltb a b Ha Hb) in H. congruence.
Qed.

(** A range cut after one of its days. *)
Lemma workable_equiv_split (s t e : date) :
  valid_date s -> valid_date t -> valid_date e ->
  toordinal s <= toordinal t -> toordinal t < toordinal e ->
  (workable_equiv_between s e
   == workable_equiv_between s t
      + sumQ (map day_value (date_range (next_day t) e)))%Q.
Proof.
  intros Hs Ht He Hst Hte.
  rewrite (workable_equiv_range_sum s e) by (apply not_ltb_of_ord; [assumption|assumption|lia]).
  rewrite (workable_equiv_range_sum s t) by (apply not_ltb_of_ord; [assumption|assumption|lia]).
  rewrite (date_range_split s t e Hs Ht He Hst Hte), map_app, sumQ_app.
  reflexivity.
Qed.

Lemma month_bounds_valid (k : month_key) :
  1 <= mk_year k <= 9999 -> 1 <= mk_month k <= 12 ->
  valid_date (fst (month_bounds k)) /\ valid_date (snd (month_bounds k))
  /\ toordinal (fst (month_bounds k)) <= toordinal (snd (month_bounds k)).
Proof.
  intros Hy Hm. unfold month_bounds, valid_date, toordinal. cbn [fst snd year month day].
  pose proof (days_in_month_bounds (mk_year k) (mk_month k)). lia.
Qed.

(** X8.  Elapsed and remaining business days of the selected month.  Before
    the month nothing has elapsed and the whole month remains; after it the
    whole month has elapsed and nothing remains; on a day of the month the
    two add up to the month plus the value of today, which both count. *)
Theorem elapsed_and_remaining (k : month_key) (t : date) :
  1 <= mk_year k <= 9999 -> 1 <= mk_month k <= 12 -> valid_date t ->
  (date_ltb t (fst (month_bounds k)) = true ->
     (workable_days_equiv_elapsed_in_month k t == 0)%Q
     /\ (dias_hab_eq_remaining k t == workable_days_equiv_month k)%Q)
  /\ (date_ltb (snd (month_bounds k)) t = true ->
     (workable_days_equiv_elapsed_in_month k t == workable_days_equiv_month k)%Q
     /\ (dias_hab_eq_remaining k t == 0)%Q)
  /\ (date_ltb t (fst (month_bounds k)) = false ->
      date_ltb (snd (month_bounds k)) t = false ->
      (workable_days_equiv_elapsed_in_month k t + dias_hab_eq_remaining k t
       == workable_days_equiv_month k + workable_equiv_between t t)%Q).
Proof.
  intros Hy Hm Ht.
  destruct (month_bounds_valid k Hy Hm) as (Hs & He & Hse).
  unfold workable_days_equiv_elapsed_in_month, dias_hab_eq_remaining,
    workable_days_equiv_month, date_leb.
  destruct (month_bounds k) as [s e]. cbn [fst snd] in *.
  split; [|split].
  - intros L. rewrite L.
    pose proof (proj1 (toordinal_ltb t s Ht Hs) L) as Hts.
    rewrite (not_ltb_of_ord s t Hs Ht) by lia.
    rewrite (not_ltb_of_ord e t He Ht) by lia.
    cbn [negb]. split; reflexivity.
  - intros L. rewrite L.
    pose proof (proj1 (toordinal_ltb e t He Ht) L) as Het.
    rewrite (not_ltb_of_ord t s Ht Hs) by lia.
    cbn [negb]. split; reflexivity.
  - intros L1 L2. rewrite L1, L2. cbn [negb].
    pose proof (ord_of_not_ltb t s Ht Hs L1) as Hst.
    pose proof (ord_of_not_ltb e t He Ht L2) as Hte.
    destruct (date_ltb s t) eqn:L3.
    + apply (toordinal_ltb s t Hs Ht) in L3.
      destruct (Z.eq_dec (toordinal t) (toordinal e)) as [E|N].
      * apply (toordinal_inj t e Ht He) in E. subst e. ring.
      * rewrite (workable_equiv_split s t e Hs Ht He) by lia.
        rewrite (workable_equiv_split t t e Ht Ht He) by lia.
        ring.
    + pose proof (ord_of_not_ltb s t Hs Ht L3) as Hts.
      assert (E : s = t) by (apply toordinal_inj; [assumption|assumption|lia]).
      subst s. ring.
Qed.

(** May 2025 seen from Saturday the 17th: 12.5 elapsed, 11.5 remaining,
    23.5 in the month, the Saturday counted twice. *)
Lemma elapsed_and_remaining_witness :
  (workable_days_equiv_elapsed_in_month (mkmonth 2025 5) (mkdate 2025 5 17) == 25 # 2)%Q
  /\ (dias_hab_eq_remaining (mkmonth 2025 5) (mkdate 2025 5 17) == 23 # 2)%Q
  /\ (workable_days_equiv_elapsed_in_month (mkmonth 2025 5) (mkdate 2025 5 17)
      + dias_hab_eq_remaining (mkmonth 2025 5) (mkdate 2025 5 17)
      == workable_days_equiv_month (mkmonth 2025 5)
         + workable_equiv_between (mkdate 2025 5 17) (mkdate 2025 5 17))%Q.
Proof.
  split; [vm_compute; reflexivity|]. split; [vm_compute; reflexivity|].
  refine (proj2 (proj2 (elapsed_and_remaining (mkmonth 2025 5) (mkdate 2025 5 17)
                          _ _ _)) eq_refl eq_refl);
    vm_compute; intuition discriminate.
Defined.

(** ** Every month has working days *)

Lemma days_from_in_month (y m : Z) (n : nat) (a j : Z) :
  a + Z.of_nat n - 1 <= days_in_month y m ->
  a <= j < a + Z.of_nat n ->
  In (mkdate y m j) (days_from (mkdate y m a) n).
Proof.
  revert a. induction n as [|n IH]; intros a Hn Hj; [lia|].
  cbn [days_from]. destruct (Z.eq_dec j a) as [->|Hne]; [now left|].
  right. unfold next_day. cbn [year month day].
  destruct (Z.ltb_spec a (days_in_month y m)); [|lia].
  apply IH; lia.
Qed.

Lemma sumQ_nonneg (f : date -> Q) (l : list date) :
  (forall x, 0 <= f x)%Q -> (0 <= sumQ (map f l))%Q.
Proof.
  intros Hf. induction l as [|z l IH]; [apply Qle_refl|].
  unfold sumQ in *. cbn [map fold_right].
  apply (Qle_trans _ (0 + 0)); [apply Qle_refl|].
  apply Qplus_le_compat; [apply Hf|exact IH].
Qed.

Lemma sumQ_ge_member (f : date -> Q) (l : list date) (d : date) :
  (forall x, 0 <= f x)%Q -> In d l -> (f d <= sumQ (map f l))%Q.
Proof.
  intros Hf. induction l as [|x l IH]; intros Hin; [destruct Hin|].
  change (sumQ (map f (x :: l))) with (f x + sumQ (map f l))%Q.
  destruct Hin as [->|Hin].
  - apply (Qle_trans _ (f d + 0)); [rewrite Qplus_0_r; apply Qle_refl|].
    apply Qplus_le_compat; [apply Qle_refl|now apply sumQ_nonneg].
  - apply (Qle_trans _ (0 + f d)); [rewrite Qplus_0_l; apply Qle_refl|].
    apply Qplus_le_compat; [apply Hf|now apply IH].
Qed.

(** No holiday falls on the 8th or on the 10th of a month. *)
Lemma no_holiday_8_10 (y m j : Z) :
  j = 8 \/ j = 10 -> date_in (mkdate y m j) (mexico_puentes y) = false.
Proof.
  intros Hj. destruct (date_in (mkdate y m j) (mexico_puentes y)) eqn:E; [|reflexivity].
  apply (date_in_puentes (mkdate y m j)) in E; [|cbn [day]; lia].
  unfold is_holiday, is_nth_weekday in E. cbn [year month day] in E. lia.
Qed.

Lemma month_total_ge_1 (k : month_key) :
  1 <= mk_month k <= 12 -> (1 <= workable_days_equiv_month k)%Q.
Proof.
  intros Hm. unfold workable_days_equiv_month, month_bounds.
  set (y := mk_year k). set (m := mk_month k).
  pose proof (days_in_month_bounds y m) as Hdim.
  assert (L : date_ltb (mkdate y m (days_in_month y m)) (mkdate y m 1) = false).
  { unfold date_ltb. cbn [year month day].
    rewrite !Z.ltb_irrefl, !Z.eqb_refl. cbn [orb andb].
    destruct (Z.ltb_spec (days_in_month y m) 1); [lia|reflexivity]. }
  rewrite (workable_equiv_range_sum _ _ L).
  assert (Hin : forall j, 1 <= j <= 28 ->
            In (mkdate y m j) (date_range (mkdate y m 1) (mkdate y m (days_in_month y m)))).
  { intros j Hj. unfold date_range, toordinal. cbn [year month day].
    apply days_from_in_month; lia. }
  assert (Hw : weekday (mkdate y m 10) = (weekday (mkdate y m 8) + 2) mod 7).
  { unfold weekday, toordinal. cbn [year month day].
    set (o := days_before_year y + days_before_month y m). clearbody o.
    Z.div_mod_to_equations. lia. }
  pose proof (weekday_range (mkdate y m 8)) as Hr.
  destruct (Z.leb_spec (weekday (mkdate y m 8)) 4) as [H8|H8].
  - eapply Qle_trans; [|apply (sumQ_ge_member day_value _ (mkdate y m 8) day_value_nonneg);
                         apply Hin; lia].
    unfold day_value. rewrite workable_equiv_between_day. cbn [year].
    rewrite (no_holiday_8_10 y m 8) by auto.
    destruct (Z.leb_spec (weekday (mkdate y m 8)) 4); [discriminate|lia].
  - eapply Qle_trans; [|apply (sumQ_ge_member day_value _ (mkdate y m 10) day_value_nonneg);
                         apply Hin; lia].
    unfold day_value. rewrite workable_equiv_between_day. cbn [year].
    rewrite (no_holiday_8_10 y m 10) by auto.
    destruct (Z.leb_spec (weekday (mkdate y m 10)) 4) as [_|H10]; [discriminate|].
    exfalso. rewrite Hw in H10. Z.div_mod_to_equations. lia.
Qed.

(** X9.  A month always has working days: its business-day-equivalent is at
    least 1, so the sanity check never reports that it could not count the
    days of the selected month, and it shows its tables whenever the quota
    table of the month exists. *)
Theorem month_has_working_days {U : UnicodeData} (S : session) :
  1 <= mk_month (meta_month_key S) <= 12 ->
  (1 <= dias_hab_eq_total S)%Q
  /\ (sanity S = None <-> df_metas_view S = None).
Proof.
  intros Hm. pose proof (month_total_ge_1 (meta_month_key S) Hm) as H1.
  split; [exact H1|].
  unfold sanity. destruct (df_metas_view S) as [view|]; [|tauto].
  destruct (Qle_bool (dias_hab_eq_total S) 0) eqn:E.
  - apply Qle_bool_iff in E. exfalso.
    assert (H : (1 <= 0)%Q) by (eapply Qle_trans; [exact H1|exact E]).
    unfold Qle in H. cbn in H. lia.
  - split; discriminate.
Qed.

Lemma month_has_working_days_witness :
  (1 <= @dias_hab_eq_total demo)%Q
  /\ (@sanity Latin1 demo = None <-> @df_metas_view Latin1 demo = None).
Proof.
  apply (@month_has_working_days Latin1 demo). vm_compute. intuition discriminate.
Defined.

(** ** The holidays are dates *)

Lemma nth_weekday_day (y m wd n : Z) :
  7 * (n - 1) < day (_nth_weekday_of_month y m wd n) <= 7 * n.
Proof.
  unfold _nth_weekday_of_month, replace_day. cbn [year month day].
  pose proof (Z.mod_pos_bound (wd - weekday (mkdate y m 1)) 7). lia.
Qed.

Lemma nth_weekday_valid (y m wd n : Z) :
  1 <= y <= 9999 -> 1 <= m <= 12 -> 1 <= n <= 4 ->
  valid_date (_nth_weekday_of_month y m wd n).
Proof.
  intros Hy Hm Hn. pose proof (nth_weekday_day y m wd n) as Hd.
  pose proof (days_in_month_bounds y m) as Hdim.
  unfold valid_date. unfold _nth_weekday_of_month, replace_day in *.
  cbn [year month day] in *. lia.
Qed.

(** X10.  For a year of the calendar, [mexico_puentes] is made of seven
    different dates of that year: none of its [replace] calls leaves the
    month, the movable holidays being asked for as first or third Mondays.
    A fifth Monday, which the function is never asked for, need not exist. *)
Theorem mexico_puentes_dates (y : Z) :
  1 <= y <= 9999 ->
  Forall (fun d => valid_date d /\ year d = y) (mexico_puentes y)
  /\ NoDup (map month (mexico_puentes y))
  /\ (forall m n, In (m, n) [(2, 1); (3, 3); (11, 3)] ->
        weekday (_nth_weekday_of_month y m 0 n) = 0).
Proof.
  intros Hy. split; [|split].
  - unfold mexico_puentes.
    repeat (apply Forall_cons;
            [ split; [ first [ apply nth_weekday_valid; lia
                             | unfold valid_date; cbn [year month day];
                               repeat split; first [lia | vm_compute; discriminate] ]
                     | reflexivity ] | ]).
    apply Forall_nil.
  - unfold mexico_puentes, _nth_weekday_of_month, replace_day.
    cbn [map month].
    repeat (apply NoDup_cons; [cbn [In]; intros H; intuition discriminate|]).
    apply NoDup_nil.
  - intros m n Hin.
    assert (Hd : 1 <= day (_nth_weekday_of_month y m 0 n)).
    { pose proof (nth_weekday_day y m 0 n) as Hd. cbn [In] in Hin.
      destruct Hin as [E|[E|[E|[]]]]; injection E as <- <-; lia. }
    pose proof (proj1 (@nth_weekday_of_month_spec
                         (_nth_weekday_of_month y m 0 n) m 0 n
                         ltac:(lia) Hd)) as H.
    change (year (_nth_weekday_of_month y m 0 n)) with y in H.
    destruct H as (_ & Hw & _); [|exact Hw].
    apply date_eqb_eq. reflexivity.
Qed.

Lemma mexico_puentes_dates_witness :
  Forall (fun d => valid_date d /\ year d = 2025) (mexico_puentes 2025)
  /\ mexico_puentes 2025
     = [mkdate 2025 1 1; mkdate 2025 2 3; mkdate 2025 3 17; mkdate 2025 5 1;
        mkdate 2025 9 16; mkdate 2025 11 17; mkdate 2025 12 25]
  /\ ~ valid_date (_nth_weekday_of_month 2025 2 0 5).
Proof.
  split; [|split; [vm_compute; reflexivity|]].
  - apply (mexico_puentes_dates 2025). lia.
  - vm_compute. intros (_ & _ & _ & H). apply H. reflexivity.
Defined.

(** ** Weeks of the month *)

(** X11.  The week of the month runs from 1 to 6, is 1 on the first of the
    month, and from one day of a month to the next it goes up by one exactly
    when the next day is a Monday: the weeks are the calendar weeks from
    Monday to Sunday, the first one being as short as the month start makes
    it. *)
Theorem week_of_month_mondays (d : date) :
  valid_date d ->
  1 <= T_WeekOfMonth d <= 6
  /\ T_WeekOfMonth (mkdate (year d) (month d) 1) = 1
  /\ (day d < days_in_month (year d) (month d) ->
      T_WeekOfMonth (next_day d)
      = T_WeekOfMonth d + (if weekday (next_day d) =? 0 then 1 else 0)).
Proof.
  intros (Hy & Hm & Hd).
  pose proof (days_in_month_bounds (year d) (month d)) as Hdim.
  pose proof (weekday_range (mkdate (year d) (month d) 1)) as Hw.
  split; [|split].
  - unfold T_WeekOfMonth.
    set (fw := weekday (mkdate (year d) (month d) 1)) in *. clearbody fw.
    Z.div_mod_to_equations. lia.
  - unfold T_WeekOfMonth. cbn [year month day].
    set (fw := weekday (mkdate (year d) (month d) 1)) in *. clearbody fw.
    Z.div_mod_to_equations. lia.
  - intros Hlt. unfold next_day.
    destruct (Z.ltb_spec (day d) (days_in_month (year d) (month d))); [|lia].
    unfold T_WeekOfMonth, weekday, toordinal. cbn [year month day].
    set (o := days_before_year (year d) + days_before_month (year d) (month d)).
    clearbody o.
    destruct (Z.eqb_spec ((o + (day d + 1) + 6) mod 7) 0) as [E|E];
      Z.div_mod_to_equations; lia.
Qed.

(** March 2025 starts on a Saturday: Sunday the 2nd is still in week 1,
    Monday the 3rd opens week 2, and Monday the 31st is in week 6. *)
Lemma week_of_month_mondays_witness :
  T_WeekOfMonth (mkdate 2025 3 2) = 1
  /\ T_WeekOfMonth (next_day (mkdate 2025 3 2)) = 2
  /\ T_WeekOfMonth (mkdate 2025 3 31) = 6
  /\ T_WeekOfMonth (next_day (mkdate 2025 3 2))
     = T_WeekOfMonth (mkdate 2025 3 2)
       + (if weekday (next_day (mkdate 2025 3 2)) =? 0 then 1 else 0).
Proof.
  split; [reflexivity|]. split; [reflexivity|]. split; [reflexivity|].
  apply (week_of_month_mondays (mkdate 2025 3 2)).
  - vm_compute. intuition discriminate.
  - vm_compute. reflexivity.
Defined.
